(** * Paint shop sequencing: greedy heuristics and the exact formulation

    A shallow embedding of the algorithmic content of [paint_shop.ipynb]:
    the set-based heuristic of the binary paint shop problem, the
    capacity-based heuristic of the multi vehicle problem, and the two
    GAMSPy models ([paintshop], [MultiPaintshop]) whose optimum the notebook
    reports as [opt_changes]. *)

From stdpp Require Import base gmap strings list.
From Stdlib Require Import ZArith Lia.

Open Scope Z_scope.

(** ** Data model *)

(** The two coatings, the strings ["white"] and ["black"] of the notebook. *)
Inductive Color := white | black.

Global Instance Color_eq_dec : EqDecision Color.
Proof. solve_decision. Defined.

(** [if current_color == "white": current_color = "black" else: ... "white"] *)
Definition flip (c : Color) : Color :=
  match c with white => black | black => white end.

(** The bookkeeping dictionary [colors = {"white": ..., "black": ...}]: a
    dictionary with exactly these two keys, each holding a container of
    type [A] (a set of car types in the binary notebook cell, a dictionary
    of remaining capacities in the multi vehicle cell). *)
Record by_color (A : Type) := Colors { at_white : A; at_black : A }.
Arguments Colors {A} _ _.
Arguments at_white {A} _.
Arguments at_black {A} _.

(** [colors_dict[color]] *)
Definition cget {A} (c : Color) (d : by_color A) : A :=
  match c with white => at_white d | black => at_black d end.

(** [colors_dict[color] = v], the in-place update of one of the two slots. *)
Definition cset {A} (c : Color) (v : A) (d : by_color A) : by_color A :=
  match c with
  | white => Colors v (at_black d)
  | black => Colors (at_white d) v
  end.

(** Python exceptions the heuristics can raise: subscripting a dictionary
    with a key it does not hold. *)
Inductive error := KeyError (k : string).

(** [sequence] of the binary notebook cell. *)
Definition sequence : list string :=
  ["A"; "D"; "E"; "B"; "A"; "F"; "C"; "B"; "C"; "D"; "E"; "F"]%string.

(** ** The heuristic of the binary paint shop problem *)

Module Binary.

(** The four variables the loop works on. *)
Record state := State {
  changes : Z;
  colors : by_color (gset string);
  result : list Color;
  current_color : Color
}.

(** [changes = 0; colors = {"white": set(), "black": set()}; result = [];
    current_color = "white"] *)
Definition init : state := State 0 (Colors ∅ ∅) [] white.

(** [paint_car]: [colors_dict[color].add(car_type)] and
    [result_list.append(color)]. *)
Definition paint_car (colors_dict : by_color (gset string))
    (result_list : list Color) (color : Color) (car_type : string)
  : by_color (gset string) * list Color :=
  (cset color ({[car_type]} ∪ cget color colors_dict) colors_dict,
   result_list ++ [color]).

(** One iteration of [for car in sequence]. *)
Definition step (st : state) (car : string) : state :=
  if decide (car ∉ cget (current_color st) (colors st)) then
    let '(cs, r) := paint_car (colors st) (result st) (current_color st) car in
    State (changes st) cs r (current_color st)
  else
    let c := flip (current_color st) in
    let '(cs, r) := paint_car (colors st) (result st) c car in
    State (changes st + 1) cs r c.

Definition run (cars : list string) : state := foldl step init cars.

(** What the cell prints: [result] and [changes]. *)
Definition heuristic (cars : list string) : list Color * Z :=
  let st := run cars in (result st, changes st).

End Binary.

(** ** The heuristic of the multi vehicle paint shop problem *)

Module Multi.

Record state := State {
  changes : Z;
  colors : by_color (gmap string Z);
  result : list Color;
  current_color : Color
}.

(** [colors = {"white": dict(demand_white), "black": dict(demand_black)}] *)
Definition init (demand_white demand_black : gmap string Z) : state :=
  State 0 (Colors demand_white demand_black) [] white.

(** [paint_car]: [colors_dict[color][car_type] -= 1] reads the entry
    (raising [KeyError] when it is missing) and stores it decremented;
    then [result_list.append(color)]. *)
Definition paint_car (colors_dict : by_color (gmap string Z))
    (result_list : list Color) (color : Color) (car_type : string)
  : error + (by_color (gmap string Z) * list Color) :=
  match cget color colors_dict !! car_type with
  | None => inl (KeyError car_type)
  | Some n =>
      inr (cset color (<[car_type := n - 1]> (cget color colors_dict)) colors_dict,
           result_list ++ [color])
  end.

(** One iteration of [for car in sequence]. *)
Definition step (st : state) (car : string) : error + state :=
  match cget (current_color st) (colors st) !! car with
  | None => inl (KeyError car)
  | Some n =>
      if bool_decide (n > 0) then
        match paint_car (colors st) (result st) (current_color st) car with
        | inl e => inl e
        | inr (cs, r) => inr (State (changes st) cs r (current_color st))
        end
      else
        let c := flip (current_color st) in
        match paint_car (colors st) (result st) c car with
        | inl e => inl e
        | inr (cs, r) => inr (State (changes st + 1) cs r c)
        end
  end.

(** The loop; an exception ends it. *)
Fixpoint loop (st : state) (cars : list string) : error + state :=
  match cars with
  | [] => inr st
  | car :: rest =>
      match step st car with
      | inl e => inl e
      | inr st' => loop st' rest
      end
  end.

Definition run (cars : list string) (demand_white demand_black : gmap string Z)
  : error + state :=
  loop (init demand_white demand_black) cars.

(** What the cell prints: [result] and [changes]. *)
Definition heuristic (cars : list string) (demand_white demand_black : gmap string Z)
  : error + (list Color * Z) :=
  match run cars demand_white demand_black with
  | inl e => inl e
  | inr st => inr (result st, changes st)
  end.

End Multi.

(** ** The GAMSPy models *)

(** [gp.Sum(i, f)] over the first [n] elements of the ordered set [i]. *)
Definition Sum (n : nat) (f : nat → Z) : Z :=
  foldr (λ i acc, f i + acc) 0 (seq 0 n).

(** The level of a binary variable at an element of [i].  A reference past
    the last element of [i], as [X[i.lead(1)]] makes at the last position,
    is a reference to a variable that does not exist: the term vanishes
    from the expression, the row is still generated.  (The solve summary of
    [MultiPaintshop] in the notebook shows it: 257 variables are the 128
    [X], the 128 [Z] and the objective variable; 269 equations are 128 rows
    of each [LinearizeObjective] equation, the 6 + 6 demand rows and the
    objective row.) *)
Definition lvl (V : list bool) (i : nat) : Z := Z.b2z (default false (V !! i)).

(** GAMS takes the labels of set elements without regard to case: two
    types that differ only in the case of their letters are one element of
    the set [j], with one row in every equation over [j]. *)
Definition fold_case (a : Ascii.ascii) : Ascii.ascii :=
  let n := Ascii.N_of_ascii a in
  if ((65 <=? n) && (n <=? 90))%N then Ascii.ascii_of_N (n + 32) else a.

(** The label of a type as GAMS compares it. *)
Fixpoint label (s : string) : string :=
  match s with
  | EmptyString => EmptyString
  | String a s' => String (fold_case a) (label s')
  end.

(** [IJ], records [(i + 1, sequence[i])]: membership of the pair (i, j),
    the car at position i having the label of j. *)
Definition IJ (cars : list string) (i : nat) (j : string) : bool :=
  bool_decide (label <$> cars !! i = Some (label j)).

(** [gp.Sum(IJ[i, j], f[i])] *)
Definition SumIJ (cars : list string) (j : string) (f : nat → Z) : Z :=
  Sum (length cars) (λ i, if IJ cars i j then f i else 0).

(** [gamspy.math.sqr] *)
Definition sqr (v : Z) : Z := v * v.

(** All 0/1 level vectors over [n] positions. *)
Fixpoint all_levels (n : nat) : list (list bool) :=
  match n with
  | O => [[]]
  | S n' => ((false ::.) <$> all_levels n') ++ ((true ::.) <$> all_levels n')
  end.

(** First minimiser of [f] in a list of candidates. *)
Fixpoint argmin {A} (f : A → Z) (l : list A) : option A :=
  match l with
  | [] => None
  | a :: l' =>
      match argmin f l' with
      | None => Some a
      | Some b => if bool_decide (f a ≤ f b) then Some a else Some b
      end
  end.

(** The model [paintshop] of the binary problem. *)
Module Paintshop.

(** [obj = gp.Sum(i, sqr(X[i] - X[i.lead(1)]))] *)
Definition obj (X : list bool) : Z :=
  Sum (length X) (λ i, sqr (lvl X i - lvl X (S i))).

(** [equation_two[j] = gp.Sum(IJ[i, j], X[i]) == 1] *)
Definition equation_two (cars : list string) (X : list bool) (j : string) : Prop :=
  SumIJ cars j (lvl X) = 1.

(** A level of [X] over [i] that meets every row; the set [j] holds, by
    domain forwarding from [IJ], the types of the sequence. *)
Definition feasible (cars : list string) (X : list bool) : Prop :=
  length X = length cars ∧ Forall (equation_two cars X) cars.

Global Instance feasible_dec cars X : Decision (feasible cars X).
Proof. unfold feasible, equation_two. apply _. Defined.

(** What a solve with status optimal delivers: a feasible level that no
    feasible level beats. *)
Definition optimal (cars : list string) (X : list bool) : Prop :=
  feasible cars X ∧ ∀ Y, feasible cars Y → obj X ≤ obj Y.

(** [paintshop.solve(...)].  The search is the external solver's; it is
    modelled by exhaustive search over the levels of [X], which returns the
    first of the cheapest feasible levels. *)
Definition solve (cars : list string) : option (list bool) :=
  argmin obj (filter (feasible cars) (all_levels (length cars))).

(** [paintshop.objective_value] *)
Definition objective_value (cars : list string) : option Z :=
  obj <$> solve cars.

End Paintshop.

(** The model [MultiPaintshop] of the multi vehicle problem. *)
Module MultiPaintshop.

(** [gp.Parameter(..., records=[(type, demand) for type, demand in
    d.items()])]: two records for one label are refused, and there is then
    no parameter and no model. *)
Definition records (d : gmap string Z) : Prop :=
  NoDup (label <$> (map_to_list d).*1).

(** The value of a GAMS parameter over [j] at an element: that of the
    record with the label of the element; an element without a record has
    value 0. *)
Definition param (d : gmap string Z) (j : string) : Z :=
  default 0
    ((list_to_map ((λ kv, (label kv.1, kv.2)) <$> map_to_list d) : gmap string Z)
       !! label j).

(** The set [j]: the types forwarded from the records of [IJ] together
    with the types the two parameters have records for. *)
Definition J (cars : list string) (demand_white demand_black : gmap string Z)
  : list string :=
  cars ++ elements (dom demand_white ∪ dom demand_black).

(** [LinearizeObjective1[i] = Z[i] >= X[i] - X[i.lead(1)]] *)
Definition LinearizeObjective1 (X Zv : list bool) (i : nat) : Prop :=
  lvl Zv i >= lvl X i - lvl X (S i).

(** [LinearizeObjective2[i] = Z[i] >= X[i.lead(1)] - X[i]] *)
Definition LinearizeObjective2 (X Zv : list bool) (i : nat) : Prop :=
  lvl Zv i >= lvl X (S i) - lvl X i.

(** [MeetBlackDemand[j] = gp.Sum(IJ[i, j], X[i]) == black_demand[j]] *)
Definition MeetBlackDemand (cars : list string) (demand_black : gmap string Z)
    (X : list bool) (j : string) : Prop :=
  SumIJ cars j (lvl X) = param demand_black j.

(** [MeetWhiteDemand[j] = gp.Sum(IJ[i, j], 1 - X[i]) == white_demand[j]] *)
Definition MeetWhiteDemand (cars : list string) (demand_white : gmap string Z)
    (X : list bool) (j : string) : Prop :=
  SumIJ cars j (λ i, 1 - lvl X i) = param demand_white j.

(** Levels of [X] and [Z] that meet the four equations on all their rows,
    the two parameters being there. *)
Definition feasible (cars : list string) (demand_white demand_black : gmap string Z)
    (XZ : list bool * list bool) : Prop :=
  let '(X, Zv) := XZ in
  records demand_white ∧ records demand_black ∧
  length X = length cars ∧ length Zv = length cars ∧
  Forall (LinearizeObjective1 X Zv) (seq 0 (length cars)) ∧
  Forall (LinearizeObjective2 X Zv) (seq 0 (length cars)) ∧
  Forall (MeetWhiteDemand cars demand_white X) (J cars demand_white demand_black) ∧
  Forall (MeetBlackDemand cars demand_black X) (J cars demand_white demand_black).

Global Instance feasible_dec cars dw db XZ : Decision (feasible cars dw db XZ).
Proof.
  destruct XZ as [X Zv].
  unfold feasible, records, LinearizeObjective1, LinearizeObjective2,
    MeetWhiteDemand, MeetBlackDemand.
  apply _.
Defined.

(** [objective = gp.Sum(i, Z[i])] *)
Definition objective (XZ : list bool * list bool) : Z :=
  Sum (length XZ.2) (lvl XZ.2).

Definition optimal (cars : list string) (demand_white demand_black : gmap string Z)
    (XZ : list bool * list bool) : Prop :=
  feasible cars demand_white demand_black XZ ∧
  ∀ XZ', feasible cars demand_white demand_black XZ' → objective XZ ≤ objective XZ'.

(** [multi_paintshop.solve(...)], modelled by exhaustive search over the
    levels of [X] and [Z] in the same way. *)
Definition solve (cars : list string) (demand_white demand_black : gmap string Z)
  : option (list bool * list bool) :=
  argmin objective
    (filter (feasible cars demand_white demand_black)
       (X ← all_levels (length cars); Zv ← all_levels (length cars); [(X, Zv)])).

(** [multi_paintshop.objective_value] *)
Definition objective_value (cars : list string)
    (demand_white demand_black : gmap string Z) : option Z :=
  objective <$> solve cars demand_white demand_black.

End MultiPaintshop.

(** The assignment a level of [X] stands for: level 1 is black, the coating
    whose demand [MeetBlackDemand] counts on [X], level 0 is white. *)
Definition coloring (X : list bool) : list Color :=
  (λ x : bool, if x then black else white) <$> X.

(** ** The problem model and the scorer *)

(** The sum of [f] over the positions of the sequence that hold the type
    [t], the types compared as Python compares strings. *)
Definition SumAt (cars : list string) (t : string) (f : nat → Z) : Z :=
  Sum (length cars) (λ i, if bool_decide (cars !! i = Some t) then f i else 0).

(** Number of occurrences of a type: [sequence.count(t)]. *)
Definition count (cars : list string) (t : string) : Z :=
  SumAt cars t (λ _, 1).

(** Number of positions that hold type [t] and are assigned coating [c]. *)
Definition assigned (cars : list string) (a : list Color) (t : string) (c : Color) : Z :=
  SumAt cars t (λ i, if bool_decide (a !! i = Some c) then 1 else 0).

(** No other type of the list has the label of [j]. *)
Definition alone (l : list string) (j : string) : Prop :=
  Forall (λ c, label c = label j → c = j) l.

(** No two types of the list differ only in the case of their letters. *)
Definition distinct_labels (l : list string) : Prop :=
  Forall (alone l) l.

(** Number of indices [i] below [n] at which an assignment changes state
    from position [i] to position [i + 1]. *)
Definition disagreements (n : nat) (a : list Color) : Z :=
  Sum n (λ i, if bool_decide (a !! i = a !! S i) then 0 else 1).

(** Modelled from the spec: the notebook has no scorer, only the counter
    [changes] and the objective value.  ChangeCount, in the words of the
    data model, is the number of indices i in [0, N-2) such that
    Assignment[i] != Assignment[i+1]. *)
Definition ChangeCount (a : list Color) : Z :=
  disagreements (length a - 2) a.

(** The number of state changes between consecutive positions, over all
    the N-1 adjacent pairs. *)
Definition adjacent_changes (a : list Color) : Z :=
  disagreements (length a - 1) a.

(** Modelled from the spec: the notebook builds no problem model and
    validates nothing.  A row of the demand table: both demands are
    present, are not negative and sum to the occurrence count. *)
Definition demand_row (cars : list string) (demand_white demand_black : gmap string Z)
    (t : string) : Prop :=
  ∃ w b, demand_white !! t = Some w ∧ demand_black !! t = Some b ∧
         0 ≤ w ∧ 0 ≤ b ∧ w + b = count cars t.

(** Modelled from the spec: a valid problem model is a sequence of length
    at least 1 with a demand table over exactly the types of the sequence,
    each row as above. *)
Definition valid_model (cars : list string) (demand_white demand_black : gmap string Z)
  : Prop :=
  (1 ≤ length cars)%nat ∧
  dom demand_white = list_to_set cars ∧ dom demand_black = list_to_set cars ∧
  Forall (demand_row cars demand_white demand_black) cars.

(** Modelled from the spec: the feasibility invariant of an assignment. *)
Definition satisfies_demand (cars : list string)
    (demand_white demand_black : gmap string Z) (a : list Color) : Prop :=
  length a = length cars ∧
  ∀ t w b, demand_white !! t = Some w → demand_black !! t = Some b →
           assigned cars a t white = w ∧ assigned cars a t black = b.

(** Modelled from the spec: the binary variant, every type of the sequence
    occurs exactly twice. *)
Definition binary_variant (cars : list string) : Prop :=
  Forall (λ t, count cars t = 2) cars.

(** The demand table the binary variant stands for: one white and one
    black for every type of the sequence. *)
Definition binary_demand (cars : list string) : gmap string Z :=
  gset_to_gmap 1 (list_to_set cars).

(** ** Invariants of the scans *)

(** The remaining capacities of a type cover exactly its occurrences in
    the part of the sequence still to be painted. *)
Definition covers (colors : by_color (gmap string Z)) (rest : list string) : Prop :=
  ∀ t,
    (t ∈ rest → is_Some (at_white colors !! t) ∧ is_Some (at_black colors !! t)) ∧
    (∀ w b, at_white colors !! t = Some w → at_black colors !! t = Some b →
            0 ≤ w ∧ 0 ≤ b ∧ w + b = count rest t).

(** The set-based and the capacity-based bookkeeping agree: over the key
    set [K] a type is in the set of a coating exactly when its capacity for
    that coating is used up, and no capacity exceeds 1. *)
Definition agree_colors (K : list string) (bc : by_color (gset string))
    (mc : by_color (gmap string Z)) : Prop :=
  ∀ c t, t ∈ K →
    ∃ n, cget c mc !! t = Some n ∧ n ≤ 1 ∧ (t ∈ cget c bc ↔ n ≤ 0).

(** The two scans are in step. *)
Definition agree (K : list string) (b : Binary.state) (m : Multi.state) : Prop :=
  Binary.changes b = Multi.changes m ∧
  Binary.result b = Multi.result m ∧
  Binary.current_color b = Multi.current_color m ∧
  agree_colors K (Binary.colors b) (Multi.colors m).

(** The tightest level of [Z] the two linearisation rows allow for [X]. *)
Definition tight (X : list bool) : list bool :=
  (λ i, bool_decide (lvl X i ≠ lvl X (S i))) <$> seq 0 (length X).

(** The level vector of a colouring, level 1 for black. *)
Definition levels (a : list Color) : list bool :=
  (λ c : Color, bool_decide (c = black)) <$> a.


(** What the objective of either model charges a level of [X]: one for
    every row [i] at which [X[i]] and [X[i.lead(1)]] differ, the last row
    of [i] included, where the lead term has vanished. *)
Definition cost (X : list bool) : Z :=
  Sum (length X) (λ i, Z.abs (lvl X i - lvl X (S i))).

(** The demand rows of [MultiPaintshop] alone, with their parameters. *)
Definition meets (cars : list string) (demand_white demand_black : gmap string Z)
    (X : list bool) : Prop :=
  MultiPaintshop.records demand_white ∧ MultiPaintshop.records demand_black ∧
  length X = length cars ∧
  Forall (MultiPaintshop.MeetWhiteDemand cars demand_white X)
    (MultiPaintshop.J cars demand_white demand_black) ∧
  Forall (MultiPaintshop.MeetBlackDemand cars demand_black X)
    (MultiPaintshop.J cars demand_white demand_black).

(** [v] is the least value of [f] over the levels of [X] that meet the
    demand rows, and some such level attains it. *)
Definition least (cars : list string) (demand_white demand_black : gmap string Z)
    (f : list bool → Z) (v : Z) : Prop :=
  (∃ X, meets cars demand_white demand_black X ∧ f X = v) ∧
  ∀ X, meets cars demand_white demand_black X → v ≤ f X.

(** The same for the rows of [paintshop]. *)
Definition least_binary (cars : list string) (f : list bool → Z) (v : Z) : Prop :=
  (∃ X, Paintshop.feasible cars X ∧ f X = v) ∧
  ∀ X, Paintshop.feasible cars X → v ≤ f X.

(** ** The data cells *)

(** [types = set(sequence)] *)
Definition types (cars : list string) : gset string := list_to_set cars.

(** [n_types = len(types)] *)
Definition n_types (cars : list string) : nat := size (types cars).

(** The comprehension [{t: sequence.count(t) - demand_white[t] for t in ts}]
    run over the types [ts] in the order given, [d] being the dictionary
    built so far: the subscript [demand_white[t]] raises [KeyError] at the
    first type the dictionary lacks. *)
Fixpoint demand_black_loop (ts : list string) (cars : list string)
    (demand_white d : gmap string Z) : error + gmap string Z :=
  match ts with
  | [] => inr d
  | t :: ts' =>
      match demand_white !! t with
      | None => inl (KeyError t)
      | Some w => demand_black_loop ts' cars demand_white (<[t := count cars t - w]> d)
      end
  end.

(** [demand_black = {t: sequence.count(t) - demand_white[t] for t in types}].
    Python iterates the set in an order of its own; the model takes the
    order of [elements]. *)
Definition demand_black (types : gset string) (cars : list string)
    (demand_white : gmap string Z) : error + gmap string Z :=
  demand_black_loop (elements types) cars demand_white ∅.


(** No capacity is taken below zero while the other coating still has
    capacity for the type. *)
Definition balanced (colors : by_color (gmap string Z)) : Prop :=
  ∀ t w b, at_white colors !! t = Some w → at_black colors !! t = Some b →
           (w < 0 → b ≤ 0) ∧ (b < 0 → w ≤ 0).

(** A sequence whose second car has no entry in [demand_white]. *)
Definition white_A_only : gmap string Z := {[ "A"%string := 1 ]}.

(** ** Instances *)

(** The level of [X] the notebook shows for [sequence]. *)
Definition X_sequence : list bool :=
  [false; true; true; true; true; true; true; false; false; false; false; false].

(** One car, to be painted black. *)
Definition cars_A : list string := ["A"]%string.
Definition white_A : gmap string Z := {[ "A"%string := 0 ]}.
Definition black_A : gmap string Z := {[ "A"%string := 1 ]}.

(** Two cars, the first to be painted white and the second black. *)
Definition cars_AB : list string := ["A"; "B"]%string.
Definition white_AB : gmap string Z := {[ "A"%string := 1; "B"%string := 0 ]}.
Definition black_AB : gmap string Z := {[ "A"%string := 0; "B"%string := 1 ]}.

(** Three cars: a white A, then one white and one black B. *)
Definition cars_ABB : list string := ["A"; "B"; "B"]%string.
Definition white_ABB : gmap string Z := {[ "A"%string := 1; "B"%string := 1 ]}.
Definition black_ABB : gmap string Z := {[ "A"%string := 0; "B"%string := 1 ]}.

(** Two cars of one type and a table that asks for one white car only. *)
Definition cars_AA : list string := ["A"; "A"]%string.
Definition white_AA : gmap string Z := {[ "A"%string := 1 ]}.
Definition black_AA : gmap string Z := {[ "A"%string := 0 ]}.

(** A type that occurs three times. *)
Definition cars_AAA : list string := ["A"; "A"; "A"]%string.

(** Two cars whose types differ only in case, the first to be painted
    white and the second black. *)
Definition cars_aA : list string := ["a"; "A"]%string.



Global Instance demand_row_dec cars dw db t : Decision (demand_row cars dw db t).
Proof.
  unfold demand_row.
  destruct (dw !! t) as [w|] eqn:Hw; [|right; intros (?&?&?&_); done].
  destruct (db !! t) as [b|] eqn:Hb; [|right; intros (?&?&_&?&_); done].
  destruct (decide (0 ≤ w ∧ 0 ≤ b ∧ w + b = count cars t)) as [H|H].
  - left. exists w, b. tauto.
  - right. intros (w' & b' & ? & ? & ?). simplify_eq. tauto.
Defined.

Global Instance alone_dec l j : Decision (alone l j).
Proof. unfold alone. apply _. Defined.

Global Instance distinct_labels_dec l : Decision (distinct_labels l).
Proof. unfold distinct_labels. apply _. Defined.

Global Instance valid_model_dec cars dw db : Decision (valid_model cars dw db).
Proof. unfold valid_model. apply _. Defined.

Global Instance binary_variant_dec cars : Decision (binary_variant cars).
Proof. unfold binary_variant. apply _. Defined.

Global Instance meets_dec cars dw db X : Decision (meets cars dw db X).
Proof.
  unfold meets, MultiPaintshop.records, MultiPaintshop.MeetWhiteDemand,
    MultiPaintshop.MeetBlackDemand.
  apply _.
Defined.

(** Prove a decidable proposition about given data by evaluation. *)
Ltac by_evaluation := apply (bool_decide_unpack _); vm_compute; exact I.

(** Settle the [bool_decide] tests whose outcome is known. *)
Ltac decide_bools :=
  repeat first
    [ rewrite bool_decide_eq_true_2 by (try done; intuition congruence)
    | rewrite bool_decide_eq_false_2 by (try done; intuition congruence) ].

(** ** Sums over the ordered set [i] *)

Lemma Sum_0 f : Sum 0 f = 0.
Proof. reflexivity. Qed.

Lemma Sum_S_l n f : Sum (S n) f = f 0%nat + Sum n (λ i, f (S i)).
Proof.
  unfold Sum. rewrite <- cons_seq, <- fmap_S_seq. simpl. f_equal.
  generalize (seq 0 n). intros l. induction l as [|x l IH]; simpl; [done|].
  change (list_fmap nat nat S l) with (S <$> l). by rewrite IH.
Qed.

Lemma Sum_ext n f g : (∀ i, (i < n)%nat → f i = g i) → Sum n f = Sum n g.
Proof.
  revert f g. induction n as [|n IH]; intros f g H; [reflexivity|].
  rewrite !Sum_S_l. rewrite (H 0%nat) by lia. f_equal.
  apply IH. intros i Hi. apply H. lia.
Qed.

Lemma Sum_le n f g : (∀ i, (i < n)%nat → f i ≤ g i) → Sum n f ≤ Sum n g.
Proof.
  revert f g. induction n as [|n IH]; intros f g H; [reflexivity|].
  rewrite !Sum_S_l. specialize (H 0%nat ltac:(lia)) as H0.
  specialize (IH (λ i, f (S i)) (λ i, g (S i))).
  assert (Sum n (λ i, f (S i)) ≤ Sum n (λ i, g (S i))); [|lia].
  apply IH. intros i Hi. apply H. lia.
Qed.

Lemma Sum_zero n f : (∀ i, (i < n)%nat → f i = 0) → Sum n f = 0.
Proof.
  revert f. induction n as [|n IH]; intros f H; [reflexivity|].
  rewrite Sum_S_l, (H 0%nat) by lia. rewrite IH; [lia|].
  intros i Hi. apply H. lia.
Qed.

Lemma Sum_nonneg n f : (∀ i, (i < n)%nat → 0 ≤ f i) → 0 ≤ Sum n f.
Proof.
  intros H. rewrite <- (Sum_zero n (λ _, 0)) by done. by apply Sum_le.
Qed.


Lemma lvl_cons_0 x V : lvl (x :: V) 0 = Z.b2z x.
Proof. reflexivity. Qed.

Lemma lvl_cons_S x V i : lvl (x :: V) (S i) = lvl V i.
Proof. reflexivity. Qed.

Lemma lvl_range V i : 0 ≤ lvl V i ≤ 1.
Proof. unfold lvl. destruct (default false (V !! i)); simpl; lia. Qed.

Lemma SumIJ_cons c cars j f :
  SumIJ (c :: cars) j f =
  (if bool_decide (label c = label j) then f 0%nat else 0) +
  SumIJ cars j (λ i, f (S i)).
Proof.
  unfold SumIJ. simpl length. rewrite Sum_S_l. unfold IJ. simpl.
  by rewrite (bool_decide_ext (Some (label c) = Some (label j))
                (label c = label j)) by (split; congruence).
Qed.

Lemma SumAt_cons c cars t f :
  SumAt (c :: cars) t f =
  (if bool_decide (c = t) then f 0%nat else 0) + SumAt cars t (λ i, f (S i)).
Proof.
  unfold SumAt. simpl length. rewrite Sum_S_l. simpl.
  by rewrite (bool_decide_ext (Some c = Some t) (c = t)) by (split; congruence).
Qed.

Lemma SumAt_nonneg cars t f : (∀ i, 0 ≤ f i) → 0 ≤ SumAt cars t f.
Proof.
  intros H. apply Sum_nonneg. intros i _. case_bool_decide; [apply H|lia].
Qed.

(** Where no other type of the sequence has the label of [j], the
    positions [IJ] gives [j] are the positions that hold [j]. *)
Lemma SumIJ_SumAt cars j : ∀ f, alone cars j → SumIJ cars j f = SumAt cars j f.
Proof.
  induction cars as [|c cars IH]; intros f Hal; [done|].
  apply Forall_cons in Hal as [Hc Hal].
  rewrite SumIJ_cons, SumAt_cons, IH by done. f_equal.
  destruct (decide (c = j)) as [->|Hne]; [by decide_bools|].
  by rewrite !bool_decide_eq_false_2 by (try done; intros ?%Hc; done).
Qed.




Lemma count_nil t : count [] t = 0.
Proof. reflexivity. Qed.

Lemma count_cons c cars t :
  count (c :: cars) t = (if bool_decide (c = t) then 1 else 0) + count cars t.
Proof. unfold count. by rewrite SumAt_cons. Qed.

Lemma count_nonneg cars t : 0 ≤ count cars t.
Proof. apply SumAt_nonneg. lia. Qed.

Lemma assigned_nil a t c : assigned [] a t c = 0.
Proof. reflexivity. Qed.

Lemma assigned_cons s cars x a t c :
  assigned (s :: cars) (x :: a) t c =
  (if bool_decide (s = t ∧ x = c) then 1 else 0) + assigned cars a t c.
Proof.
  unfold assigned. rewrite SumAt_cons. simpl. f_equal.
  destruct (decide (s = t)) as [->|]; destruct (decide (x = c)) as [->|];
    decide_bools; done.
Qed.


(** Every position of a type is assigned one of the two coatings. *)
Lemma assigned_total cars a t :
  length a = length cars →
  assigned cars a t white + assigned cars a t black = count cars t.
Proof.
  revert a. induction cars as [|s cars IH]; intros [|x a] Hl; try done.
  rewrite !assigned_cons, count_cons. simpl in Hl.
  specialize (IH a ltac:(lia)).
  destruct (decide (s = t)) as [->|]; destruct x;
    decide_bools; lia.
Qed.


(** ** Adjacent state changes *)

Lemma adjacent_changes_one x : adjacent_changes [x] = 0.
Proof. reflexivity. Qed.

Lemma adjacent_changes_cons x y a :
  adjacent_changes (x :: y :: a) =
  (if bool_decide (x = y) then 0 else 1) + adjacent_changes (y :: a).
Proof.
  unfold adjacent_changes, disagreements. simpl length.
  replace (S (S (length a)) - 1)%nat with (S (length a)) by lia.
  replace (S (length a) - 1)%nat with (length a) by lia.
  rewrite Sum_S_l. simpl. f_equal.
  destruct (decide (x = y)) as [->|];
    decide_bools; done.
Qed.

(** Started in the white state, the scan changes state once more than the
    assignment shows exactly when the first position is painted black. *)
Lemma adjacent_changes_white a :
  adjacent_changes (white :: a) =
  adjacent_changes a + (if bool_decide (head a = Some black) then 1 else 0).
Proof.
  destruct a as [|x a]; [reflexivity|].
  rewrite adjacent_changes_cons. simpl. destruct x; simpl; lia.
Qed.

Lemma adjacent_changes_nonneg a : 0 ≤ adjacent_changes a.
Proof.
  apply Sum_nonneg. intros i _. case_bool_decide; lia.
Qed.


(** ** The two slots of the bookkeeping dictionary *)

Lemma cget_cset_eq {A} c (v : A) d : cget c (cset c v d) = v.
Proof. by destruct c. Qed.

Lemma cget_cset_ne {A} c c' (v : A) d : c ≠ c' → cget c' (cset c v d) = cget c' d.
Proof. by destruct c, c'. Qed.

Lemma flip_ne c : flip c ≠ c.
Proof. by destruct c. Qed.

(** ** The capacity-based scan *)

Section multi_scan.
Import Multi.

(** A step that does not raise paints the car with some coating [c],
    takes one unit of the capacity of [c] for the car's type, and counts
    a change exactly when [c] is not the state the step started in. *)
Lemma step_inr st car st' :
  step st car = inr st' →
  ∃ c n, cget c (colors st) !! car = Some n ∧
    st' = State
            (changes st + (if bool_decide (current_color st = c) then 0 else 1))
            (cset c (<[car := n - 1]> (cget c (colors st))) (colors st))
            (result st ++ [c]) c.
Proof.
  unfold step, paint_car. intros H.
  destruct (cget (current_color st) (colors st) !! car) as [n|] eqn:Hn; [|done].
  destruct (bool_decide (n > 0)).
  - inversion H; subst. exists (current_color st), n.
    split; [done|]. decide_bools. f_equal. lia.
  - destruct (cget (flip (current_color st)) (colors st) !! car) as [m|] eqn:Hm;
      [|done].
    inversion H; subst. exists (flip (current_color st)), m.
    split; [done|]. pose proof (flip_ne (current_color st)). by decide_bools.
Qed.

(** The step raises only on a missing key. *)
Lemma step_keys st car :
  is_Some (at_white (colors st) !! car) →
  is_Some (at_black (colors st) !! car) →
  ∃ st', step st car = inr st'.
Proof.
  intros [w Hw] [b Hb]. unfold step, paint_car.
  destruct (current_color st); simpl; rewrite ?Hw, ?Hb;
    case_bool_decide; rewrite ?Hw, ?Hb; eauto.
Qed.

Lemma lookup_after_paint (d : by_color (gmap string Z)) c car n c' t :
  cget c d !! car = Some n →
  cget c' (cset c (<[car := n - 1]> (cget c d)) d) !! t =
  (λ v, v - (if bool_decide (car = t ∧ c = c') then 1 else 0)) <$> cget c' d !! t.
Proof.
  intros Hn. destruct (decide (c = c')) as [<-|Hc].
  - rewrite cget_cset_eq. destruct (decide (car = t)) as [<-|Ht].
    + rewrite lookup_insert_eq, Hn. by decide_bools.
    + rewrite lookup_insert_ne by done. decide_bools.
      destruct (cget c d !! t); simpl; f_equal; lia.
  - rewrite cget_cset_ne by done. decide_bools.
    destruct (cget c' d !! t); simpl; f_equal; lia.
Qed.

(** What a completed scan did: it appended one coating per car, counted
    the state changes of the appended part started from the state it was
    in, and lowered every capacity by the number of cars painted at its
    expense. *)
Lemma loop_inr cars : ∀ st st',
  loop st cars = inr st' →
  ∃ r, result st' = result st ++ r ∧ length r = length cars ∧
       changes st' = changes st + adjacent_changes (current_color st :: r) ∧
       ∀ c t, cget c (colors st') !! t =
              (λ v, v - assigned cars r t c) <$> cget c (colors st) !! t.
Proof.
  induction cars as [|car rest IH]; intros st st' H; simpl in H.
  - inversion H; subst. exists []. rewrite app_nil_r, adjacent_changes_one.
    split_and!; [done|done|lia|].
    intros c t. rewrite assigned_nil.
    destruct (cget c (colors st') !! t); simpl; f_equal; lia.
  - destruct (step st car) as [e|st1] eqn:Hs; [done|].
    apply step_inr in Hs as (c & n & Hn & ->).
    apply IH in H as (r & Hr & Hl & Hc & Hd). simpl in *.
    exists (c :: r). split_and!.
    + by rewrite Hr, <- app_assoc.
    + simpl. lia.
    + rewrite Hc. destruct r as [|x r].
      * rewrite adjacent_changes_cons, adjacent_changes_one. lia.
      * rewrite (adjacent_changes_cons (current_color st)). lia.
    + intros c' t. rewrite Hd, (lookup_after_paint _ _ _ _ _ _ Hn).
      rewrite assigned_cons.
      destruct (cget c' (colors st) !! t); simpl; f_equal.
      destruct (decide (car = t ∧ c = c')); decide_bools; lia.
Qed.

(** The scan raises only on a missing key. *)
Lemma loop_keys cars : ∀ st,
  (∀ t, t ∈ cars →
        is_Some (at_white (colors st) !! t) ∧ is_Some (at_black (colors st) !! t)) →
  ∃ st', loop st cars = inr st'.
Proof.
  induction cars as [|car rest IH]; intros st HK; simpl; [eauto|].
  destruct (HK car) as [Hw Hb]; [left|].
  destruct (step_keys st car Hw Hb) as [st1 Hs]. rewrite Hs.
  apply IH. intros t Ht.
  apply step_inr in Hs as (c & n & Hn & ->). simpl.
  destruct (HK t) as [[w Hw'] [b Hb']]; [by right|].
  pose proof (lookup_after_paint (colors st) c car n white t Hn) as H1.
  pose proof (lookup_after_paint (colors st) c car n black t Hn) as H2.
  simpl in H1, H2. rewrite H1, H2, Hw', Hb'. simpl. eauto.
Qed.

(** With capacities that cover the rest of the sequence a step finds
    capacity, in the current state or after the flip, and the capacities
    left cover what then remains. *)
Lemma step_covers st car rest :
  covers (colors st) (car :: rest) →
  ∃ st', step st car = inr st' ∧ covers (colors st') rest.
Proof.
  intros HC. destruct (HC car) as [HK _].
  destruct HK as [[w Hw] [b Hb]]; [left|].
  destruct (HC car) as [_ Hcar]. specialize (Hcar w b Hw Hb).
  rewrite count_cons in Hcar. rewrite bool_decide_eq_true_2 in Hcar by done.
  pose proof (count_nonneg rest car) as Hnn.
  destruct (step_keys st car) as [st' Hs]; [by eexists..|].
  exists st'. split; [done|].
  pose proof Hs as Hs'. apply step_inr in Hs' as (c & n & Hn & ->). simpl.
  assert (1 ≤ n) as Hpos.
  { unfold step, paint_car in Hs.
    destruct (current_color st) eqn:Hcur; simpl in Hs; rewrite ?Hw, ?Hb in Hs;
      case_bool_decide; rewrite ?Hw, ?Hb in Hs; inversion Hs; subst;
      simpl in Hn; simplify_eq; lia. }
  intros t.
  pose proof (lookup_after_paint (colors st) c car n white t Hn) as H1.
  pose proof (lookup_after_paint (colors st) c car n black t Hn) as H2.
  simpl in H1, H2. rewrite H1, H2.
  destruct (HC t) as [HKt Ht]. rewrite count_cons in Ht. split.
  - intros Hin. destruct HKt as [[? ->] [? ->]]; [by right|]. simpl. eauto.
  - intros w' b' Hw' Hb'.
    destruct (at_white (colors st) !! t) as [w0|] eqn:Ew; [|done].
    destruct (at_black (colors st) !! t) as [b0|] eqn:Eb; [|done].
    simpl in Hw', Hb'. simplify_eq. specialize (Ht w0 b0 eq_refl eq_refl).
    destruct (decide (car = t)) as [->|Hne].
    + rewrite bool_decide_eq_true_2 in Ht by done.
      destruct c; simpl in Hn; decide_bools; simplify_eq; lia.
    + rewrite bool_decide_eq_false_2 in Ht by done. decide_bools. lia.
Qed.

Lemma loop_covers cars : ∀ st,
  covers (colors st) cars →
  ∃ st', loop st cars = inr st' ∧ covers (colors st') [].
Proof.
  induction cars as [|car rest IH]; intros st HC; simpl; [eauto|].
  destruct (step_covers st car rest HC) as (st1 & -> & HC1). by apply IH.
Qed.

End multi_scan.

(** What the capacity-based heuristic returns whenever it returns. *)
Lemma multi_heuristic_inr cars dw db r n :
  Multi.heuristic cars dw db = inr (r, n) →
  length r = length cars ∧ n = adjacent_changes (white :: r).
Proof.
  unfold Multi.heuristic, Multi.run. intros H.
  destruct (Multi.loop _ cars) as [e|st'] eqn:Hl; [done|].
  inversion H; subst. apply loop_inr in Hl as (r & Hr & Hlen & Hc & _).
  simpl in *. rewrite Hr, Hc. split; [done|lia].
Qed.

Lemma valid_model_covers cars dw db :
  valid_model cars dw db → covers (Colors dw db) cars.
Proof.
  intros (_ & Hdw & Hdb & Hrows) t. simpl. split.
  - intros Hin. rewrite <- !elem_of_dom, Hdw, Hdb, elem_of_list_to_set. done.
  - intros w b Hw Hb.
    assert (t ∈ cars) as Hin.
    { apply (elem_of_dom_2 (D := gset string)) in Hw.
      rewrite Hdw in Hw. by apply elem_of_list_to_set in Hw. }
    rewrite Forall_forall in Hrows.
    destruct (Hrows t Hin) as (w' & b' & Hw' & Hb' & ?). by simplify_eq.
Qed.

(** On capacities that cover the sequence the heuristic returns, and what
    it returns meets the demand table. *)
Lemma multi_heuristic_covers cars dw db :
  covers (Colors dw db) cars →
  ∃ r n, Multi.heuristic cars dw db = inr (r, n) ∧ satisfies_demand cars dw db r.
Proof.
  intros HC. unfold Multi.heuristic, Multi.run.
  destruct (loop_covers cars (Multi.init dw db) HC) as (st' & Hl & HC').
  rewrite Hl. do 2 eexists. split; [done|].
  apply loop_inr in Hl as (r & Hr & Hlen & _ & Hd). simpl in Hr. rewrite Hr.
  split; [done|]. intros t w b Hw Hb.
  pose proof (Hd white t) as H1. pose proof (Hd black t) as H2.
  simpl in H1, H2. rewrite Hw in H1. rewrite Hb in H2. simpl in H1, H2.
  destruct (HC' t) as [_ H0]. specialize (H0 _ _ H1 H2).
  rewrite count_nil in H0. lia.
Qed.


(** ** Level vectors and colourings *)

Lemma coloring_levels a : coloring (levels a) = a.
Proof.
  unfold coloring, levels. induction a as [|[] a IH]; simpl; [done|..];
    f_equal; exact IH.
Qed.



Lemma length_levels a : length (levels a) = length a.
Proof. unfold levels. by rewrite length_fmap. Qed.

Lemma SumAt_black cars : ∀ X j,
  length X = length cars →
  SumAt cars j (lvl X) = assigned cars (coloring X) j black.
Proof.
  induction cars as [|s cars IH]; intros [|x X] j Hl; try done.
  simpl in Hl. change (coloring (x :: X)) with ((if x then black else white) :: coloring X).
  rewrite SumAt_cons, assigned_cons.
  change (SumAt cars j (λ i, lvl (x :: X) (S i))) with (SumAt cars j (lvl X)).
  rewrite IH by lia. f_equal. rewrite lvl_cons_0.
  destruct (decide (s = j)) as [->|]; destruct x; decide_bools; done.
Qed.

Lemma SumAt_white cars : ∀ X j,
  length X = length cars →
  SumAt cars j (λ i, 1 - lvl X i) = assigned cars (coloring X) j white.
Proof.
  induction cars as [|s cars IH]; intros [|x X] j Hl; try done.
  simpl in Hl. change (coloring (x :: X)) with ((if x then black else white) :: coloring X).
  rewrite SumAt_cons, assigned_cons.
  change (SumAt cars j (λ i, 1 - lvl (x :: X) (S i)))
    with (SumAt cars j (λ i, 1 - lvl X i)).
  rewrite IH by lia. f_equal. rewrite lvl_cons_0.
  destruct (decide (s = j)) as [->|]; destruct x; decide_bools; done.
Qed.

(** The sum of the levels over the positions of a type counts the black
    cars of the type, where no other type of the sequence has its label. *)
Lemma SumIJ_black cars X j :
  alone cars j → length X = length cars →
  SumIJ cars j (lvl X) = assigned cars (coloring X) j black.
Proof. intros Hal Hl. by rewrite SumIJ_SumAt, SumAt_black. Qed.

Lemma SumIJ_white cars X j :
  alone cars j → length X = length cars →
  SumIJ cars j (λ i, 1 - lvl X i) = assigned cars (coloring X) j white.
Proof. intros Hal Hl. by rewrite SumIJ_SumAt, SumAt_white. Qed.


(** ** Labels and parameter records *)

Lemma distinct_labels_spec l :
  distinct_labels l ↔ ∀ s t, s ∈ l → t ∈ l → label s = label t → s = t.
Proof.
  unfold distinct_labels, alone. rewrite Forall_forall. split.
  - intros H s t Hs Ht. specialize (H t Ht). rewrite Forall_forall in H. by apply H.
  - intros H t Ht. apply Forall_forall. intros s Hs. by apply H.
Qed.

Lemma distinct_labels_alone l j : distinct_labels l → j ∈ l → alone l j.
Proof. unfold distinct_labels. rewrite Forall_forall. auto. Qed.

Lemma NoDup_fmap_eq {A B} (f : A → B) (l : list A) x y :
  NoDup (f <$> l) → x ∈ l → y ∈ l → f x = f y → x = y.
Proof.
  induction l as [|a l IH]; intros Hnd Hx Hy Hf; [by apply elem_of_nil in Hx|].
  rewrite fmap_cons in Hnd. apply NoDup_cons in Hnd as [Hnot Hnd].
  apply elem_of_cons in Hx as [->|Hx]; apply elem_of_cons in Hy as [->|Hy].
  - done.
  - exfalso. apply Hnot. rewrite Hf. by apply list_elem_of_fmap_2.
  - exfalso. apply Hnot. rewrite <- Hf. by apply list_elem_of_fmap_2.
  - by apply IH.
Qed.

Lemma elem_of_keys (d : gmap string Z) t :
  t ∈ (map_to_list d).*1 ↔ is_Some (d !! t).
Proof.
  rewrite list_elem_of_fmap. split.
  - intros ([k v] & -> & Hin). apply elem_of_map_to_list in Hin. by exists v.
  - intros [v Hv]. exists (t, v). split; [done|]. by apply elem_of_map_to_list.
Qed.

(** The records of a dictionary are taken when no two of its keys have one
    label, and only then. *)
Lemma records_spec (d : gmap string Z) :
  MultiPaintshop.records d ↔
  ∀ s t, is_Some (d !! s) → is_Some (d !! t) → label s = label t → s = t.
Proof.
  unfold MultiPaintshop.records. split.
  - intros Hnd s t Hs Ht. apply (NoDup_fmap_eq _ _ _ _ Hnd); by apply elem_of_keys.
  - intros Hinj. apply NoDup_fmap_2_strong; [|apply NoDup_fst_map_to_list].
    intros s t Hs%elem_of_keys Ht%elem_of_keys. by apply Hinj.
Qed.

(** A parameter has the value of the dictionary at every key. *)
Lemma param_lookup (d : gmap string Z) t w :
  MultiPaintshop.records d → d !! t = Some w → MultiPaintshop.param d t = w.
Proof.
  intros Hr Ht. unfold MultiPaintshop.param.
  rewrite (elem_of_list_to_map_1 _ (label t) w); [done| |].
  - unfold MultiPaintshop.records in Hr. rewrite <- list_fmap_compose.
    rewrite <- list_fmap_compose in Hr. exact Hr.
  - apply list_elem_of_fmap. exists (t, w). split; [done|].
    by apply elem_of_map_to_list.
Qed.

Lemma valid_model_records cars dw db :
  valid_model cars dw db → distinct_labels cars →
  MultiPaintshop.records dw ∧ MultiPaintshop.records db.
Proof.
  intros (_ & Hdw & Hdb & _) Hd. rewrite distinct_labels_spec in Hd.
  split; apply records_spec; intros s t Hs%elem_of_dom Ht%elem_of_dom;
    rewrite ?Hdw, ?Hdb in Hs, Ht; apply elem_of_list_to_set in Hs, Ht; by apply Hd.
Qed.

Lemma valid_model_distinct cars dw db :
  valid_model cars dw db → MultiPaintshop.records dw → distinct_labels cars.
Proof.
  intros (_ & Hdw & _) Hr. apply distinct_labels_spec. intros s t Hs Ht.
  rewrite records_spec in Hr. apply Hr; apply elem_of_dom; rewrite Hdw;
    by apply elem_of_list_to_set.
Qed.

(** ** Exhaustive search *)

Lemma all_levels_complete n : ∀ X, length X = n → X ∈ all_levels n.
Proof.
  induction n as [|n IH]; intros [|x X] Hl; try done.
  - simpl. by left.
  - simpl in *. rewrite elem_of_app, !list_elem_of_fmap.
    destruct x; [right|left]; exists X; (split; [done|apply IH; lia]).
Qed.

Lemma argmin_None {A} (f : A → Z) l : argmin f l = None → l = [].
Proof.
  destruct l as [|a l]; [done|]. simpl.
  destruct (argmin f l); [case_bool_decide|]; done.
Qed.

Lemma argmin_Some {A} (f : A → Z) l a :
  argmin f l = Some a → a ∈ l ∧ ∀ b, b ∈ l → f a ≤ f b.
Proof.
  revert a. induction l as [|x l IH]; intros a H; [done|]. simpl in H.
  destruct (argmin f l) as [m|] eqn:Hm.
  - destruct (IH m eq_refl) as [Hin Hle]. case_bool_decide; simplify_eq.
    + split; [left|]. intros b [->|Hb]%elem_of_cons; [lia|].
      specialize (Hle b Hb). lia.
    + split; [by right|]. intros b [->|Hb]%elem_of_cons; [lia|by apply Hle].
  - simplify_eq. apply argmin_None in Hm as ->. split; [left|].
    intros b Hb%list_elem_of_singleton. subst. lia.
Qed.


(** ** The objective of the two models *)

Lemma length_tight X : length (tight X) = length X.
Proof. unfold tight. by rewrite length_fmap, length_seq. Qed.

Lemma lvl_tight X i :
  (i < length X)%nat → lvl (tight X) i = Z.abs (lvl X i - lvl X (S i)).
Proof.
  intros Hi. unfold tight, lvl at 1.
  rewrite list_lookup_fmap, lookup_seq_lt by done. simpl.
  pose proof (lvl_range X i). pose proof (lvl_range X (S i)).
  case_bool_decide; simpl; lia.
Qed.

Lemma cost_one x : cost [x] = Z.b2z x.
Proof. by destruct x. Qed.

Lemma cost_cons x y X :
  cost (x :: y :: X) = Z.abs (Z.b2z x - Z.b2z y) + cost (y :: X).
Proof. unfold cost. simpl length. by rewrite Sum_S_l. Qed.

Lemma cost_nonneg X : 0 ≤ cost X.
Proof. apply Sum_nonneg. intros. lia. Qed.

(** The objective counts the adjacent state changes of the colouring and,
    on the last row, the level of the last position. *)
Lemma cost_changes X :
  cost X = adjacent_changes (coloring X) + lvl X (length X - 1).
Proof.
  induction X as [|x X IH]; [reflexivity|].
  destruct X as [|y X].
  - rewrite cost_one. simpl. rewrite adjacent_changes_one. unfold lvl. simpl. lia.
  - rewrite cost_cons, IH.
    change (coloring (x :: y :: X))
      with ((if x then black else white) :: (if y then black else white) :: coloring X).
    rewrite adjacent_changes_cons.
    change ((if y then black else white) :: coloring X) with (coloring (y :: X)).
    replace (length (x :: y :: X) - 1)%nat with (S (length (y :: X) - 1))
      by (simpl; lia).
    rewrite lvl_cons_S. destruct x, y; simpl; lia.
Qed.

Lemma paintshop_obj_cost X : Paintshop.obj X = cost X.
Proof.
  apply Sum_ext. intros i _. unfold sqr.
  pose proof (lvl_range X i). pose proof (lvl_range X (S i)). nia.
Qed.

Section multi_model.
Import MultiPaintshop.
Context (cars : list string) (dw db : gmap string Z).

Lemma feasible_meets X Zv : feasible cars dw db (X, Zv) → meets cars dw db X.
Proof. intros (? & ? & ? & ? & ? & ? & ? & ?). by split_and!. Qed.

(** No feasible level of [Z] is cheaper than the tight one. *)
Lemma feasible_cost X Zv : feasible cars dw db (X, Zv) → cost X ≤ objective (X, Zv).
Proof.
  intros (_ & _ & HX & HZ & H1 & H2 & _). unfold cost, objective. simpl.
  rewrite HX, HZ. apply Sum_le. intros i Hi.
  rewrite Forall_forall in H1, H2.
  assert (i ∈ seq 0 (length cars)) as Hin by (apply elem_of_seq; lia).
  specialize (H1 i Hin). specialize (H2 i Hin).
  unfold LinearizeObjective1, LinearizeObjective2 in *. lia.
Qed.

(** The tight level of [Z] is feasible and costs exactly [cost X]. *)
Lemma meets_tight X :
  meets cars dw db X →
  feasible cars dw db (X, tight X) ∧ objective (X, tight X) = cost X.
Proof.
  intros (Rw & Rb & HX & HW & HB). split.
  - split_and!; try done.
    + by rewrite length_tight.
    + apply Forall_forall. intros i [_ Hi]%elem_of_seq.
      unfold LinearizeObjective1. rewrite lvl_tight by lia. lia.
    + apply Forall_forall. intros i [_ Hi]%elem_of_seq.
      unfold LinearizeObjective2. rewrite lvl_tight by lia. lia.
  - unfold objective, cost. simpl. rewrite length_tight.
    apply Sum_ext. intros i Hi. by apply lvl_tight.
Qed.

(** The optimum of the linearised program is the least [cost] over the
    levels of [X] that meet the demand rows. *)
Lemma optimal_least X Zv :
  optimal cars dw db (X, Zv) →
  objective (X, Zv) = cost X ∧ least cars dw db cost (cost X).
Proof.
  intros [HF Hmin]. pose proof (feasible_meets _ _ HF) as HM.
  destruct (meets_tight X HM) as [HFt Hot].
  pose proof (Hmin _ HFt) as H1. pose proof (feasible_cost _ _ HF) as H2.
  split; [lia|]. split; [by exists X|].
  intros Y HY. destruct (meets_tight Y HY) as [HFy Hoy].
  specialize (Hmin _ HFy). lia.
Qed.

Lemma solve_Some XZ : solve cars dw db = Some XZ → optimal cars dw db XZ.
Proof.
  unfold solve. intros [Hin Hle]%argmin_Some.
  apply list_elem_of_filter in Hin as [HF _]. split; [done|].
  intros [Y Zy] HY. apply Hle. apply list_elem_of_filter. split; [done|].
  destruct HY as (_ & _ & HYl & HZl & _).
  apply list_elem_of_bind. exists Y. split; [|by apply all_levels_complete].
  apply list_elem_of_bind. exists Zy. split; [by left|by apply all_levels_complete].
Qed.



(** A colouring that meets the demand table of a valid model meets the
    demand rows, where no two types have one label. *)
Lemma satisfies_meets a :
  valid_model cars dw db → distinct_labels cars →
  satisfies_demand cars dw db a → meets cars dw db (levels a).
Proof.
  intros HV Hd [Hl Hs].
  destruct (valid_model_records cars dw db HV Hd) as [Rw Rb].
  destruct HV as (_ & Hdw & Hdb & Hrows).
  assert (∀ t, t ∈ J cars dw db → t ∈ cars) as HJ.
  { intros t [?|Ht]%elem_of_app; [done|].
    apply elem_of_elements in Ht. rewrite Hdw, Hdb in Ht.
    apply elem_of_union in Ht as [Ht|Ht]; by apply elem_of_list_to_set in Ht. }
  rewrite Forall_forall in Hrows.
  split_and!; [done|done|by rewrite length_levels|..];
    apply Forall_forall; intros t Ht%HJ;
    destruct (Hrows t Ht) as (w & b & Hw & Hb & _);
    destruct (Hs t w b Hw Hb) as [Haw Hab];
    pose proof (distinct_labels_alone cars t Hd Ht) as Hal;
    unfold MeetWhiteDemand, MeetBlackDemand;
    rewrite ?(param_lookup dw t w Rw Hw), ?(param_lookup db t b Rb Hb).
  - by rewrite SumIJ_white, coloring_levels by (done || by rewrite length_levels).
  - by rewrite SumIJ_black, coloring_levels by (done || by rewrite length_levels).
Qed.

End multi_model.

Lemma paintshop_solve_Some cars X :
  Paintshop.solve cars = Some X → Paintshop.optimal cars X.
Proof.
  unfold Paintshop.solve. intros [Hin Hle]%argmin_Some.
  apply list_elem_of_filter in Hin as [HF _]. split; [done|].
  intros Y HY. apply Hle. apply list_elem_of_filter. split; [done|].
  destruct HY as [HYl _]. by apply all_levels_complete.
Qed.


(** ** The set-based scan against the capacity-based scan *)

Lemma agree_paint K bc mc c car :
  agree_colors K bc mc → car ∈ K →
  ∃ n, cget c mc !! car = Some n ∧
       agree_colors K (cset c ({[car]} ∪ cget c bc) bc)
                      (cset c (<[car := n - 1]> (cget c mc)) mc).
Proof.
  intros HA Hcar. destruct (HA c car Hcar) as (n & Hn & Hle & Hiff).
  exists n. split; [done|]. intros c' t Ht.
  destruct (HA c' t Ht) as (k & Hk & Hkle & Hkiff).
  destruct (decide (c = c')) as [<-|Hc].
  - rewrite !cget_cset_eq. destruct (decide (car = t)) as [<-|Hne].
    + exists (n - 1). rewrite lookup_insert_eq. split_and!; [done|lia|].
      split; [lia|]. intros _. apply elem_of_union. left.
      by apply elem_of_singleton.
    + exists k. rewrite lookup_insert_ne by done. split_and!; [done..|].
      rewrite <- Hkiff, elem_of_union, elem_of_singleton.
      clear -Hne. intuition congruence.
  - rewrite !cget_cset_ne by done. by exists k.
Qed.

Lemma agree_step K b m car :
  agree K b m → car ∈ K →
  ∃ m', Multi.step m car = inr m' ∧ agree K (Binary.step b car) m'.
Proof.
  intros (Hch & Hres & Hcur & HA) Hcar.
  destruct (HA (Multi.current_color m) car Hcar) as (n & Hn & Hle & Hiff).
  unfold Multi.step, Binary.step, Multi.paint_car, Binary.paint_car.
  rewrite Hn, Hcur, Hch, Hres.
  destruct (decide (car ∉ cget (Multi.current_color m) (Binary.colors b)))
    as [Hnot|Hin].
  - assert (n > 0) by (destruct (decide (n ≤ 0)) as [Hn0|]; [by apply Hiff in Hn0|lia]).
    rewrite bool_decide_eq_true_2 by done.
    destruct (agree_paint K _ _ (Multi.current_color m) car HA Hcar)
      as (n' & Hn' & HA').
    simplify_eq. eexists. split; [done|]. by split_and!.
  - apply dec_stable, Hiff in Hin. rewrite bool_decide_eq_false_2 by lia.
    destruct (agree_paint K _ _ (flip (Multi.current_color m)) car HA Hcar)
      as (n' & Hn' & HA').
    rewrite Hn'. eexists. split; [done|]. by split_and!.
Qed.

Lemma agree_loop K cars : ∀ b m,
  agree K b m → (∀ t, t ∈ cars → t ∈ K) →
  ∃ m', Multi.loop m cars = inr m' ∧ agree K (foldl Binary.step b cars) m'.
Proof.
  induction cars as [|car rest IH]; intros b m HA HK; simpl; [eauto|].
  destruct (agree_step K b m car HA) as (m1 & -> & HA1); [apply HK; left|].
  apply IH; [done|]. intros t Ht. apply HK. by right.
Qed.

(** On a demand table of ones the capacity-based heuristic returns what
    the set-based heuristic returns. *)
Lemma heuristics_agree cars dw db :
  (∀ t, t ∈ cars → dw !! t = Some 1 ∧ db !! t = Some 1) →
  Multi.heuristic cars dw db = inr (Binary.heuristic cars).
Proof.
  intros H1. unfold Multi.heuristic, Multi.run, Binary.heuristic, Binary.run.
  destruct (agree_loop cars cars Binary.init (Multi.init dw db))
    as (m' & -> & Hch & Hres & _); [|done|by rewrite Hch, Hres].
  split_and!; try done. intros c t Ht. exists 1.
  destruct (H1 t Ht) as [Hw Hb].
  destruct c; simpl; (split_and!; [done|lia|]); rewrite elem_of_empty; lia.
Qed.

Lemma lookup_binary_demand cars t :
  binary_demand cars !! t = if bool_decide (t ∈ cars) then Some 1 else None.
Proof.
  unfold binary_demand. rewrite lookup_gset_to_gmap.
  destruct (decide (t ∈ cars)) as [Hin|Hnot].
  - rewrite bool_decide_eq_true_2 by done.
    rewrite option_guard_True by (by apply elem_of_list_to_set). done.
  - rewrite bool_decide_eq_false_2 by done.
    rewrite option_guard_False by (by rewrite elem_of_list_to_set). done.
Qed.


(** ** Further facts used below *)

(** The set-based heuristic on a sequence that is not empty: one coating
    per car, the first white, and as changes the adjacent state changes. *)
Lemma binary_heuristic_shape car rest :
  ∃ r', Binary.heuristic (car :: rest) =
          (white :: r', adjacent_changes (white :: r')) ∧
        length r' = length rest.
Proof.
  pose (bd := binary_demand (car :: rest)).
  assert (bd !! car = Some 1) as Hcar.
  { unfold bd. rewrite lookup_binary_demand, bool_decide_eq_true_2; [done|left]. }
  assert (Multi.heuristic (car :: rest) bd bd = inr (Binary.heuristic (car :: rest)))
    as Hagree.
  { apply heuristics_agree. intros t Ht. unfold bd.
    by rewrite lookup_binary_demand, bool_decide_eq_true_2. }
  unfold Multi.heuristic, Multi.run in Hagree. simpl in Hagree.
  unfold Multi.step, Multi.paint_car in Hagree. simpl in Hagree.
  rewrite Hcar in Hagree. rewrite bool_decide_eq_true_2 in Hagree by lia.
  destruct (Multi.loop _ rest) as [e|st'] eqn:Hl; [done|].
  apply loop_inr in Hl as (r' & Hr & Hlen & Hc & _). simpl in Hr, Hc.
  exists r'. split; [|done]. rewrite Hr, Hc in Hagree. simpl in Hagree.
  generalize dependent (Binary.heuristic (car :: rest)).
  intros p Hp. injection Hp as <-. done.
Qed.




(** The reported optimum is the number of adjacent state changes of the
    colouring plus the level of the last position. *)
Lemma optimal_objective cars dw db X Zv :
  MultiPaintshop.optimal cars dw db (X, Zv) →
  MultiPaintshop.objective (X, Zv) =
  adjacent_changes (coloring X) + lvl X (length cars - 1).
Proof.
  intros HO. pose proof HO as [(_ & _ & HX & _) _].
  apply optimal_least in HO as [-> _]. by rewrite cost_changes, HX.
Qed.

Lemma optimal_same_objective cars dw db XZ XZ' :
  MultiPaintshop.optimal cars dw db XZ →
  MultiPaintshop.feasible cars dw db XZ' →
  MultiPaintshop.objective XZ' = MultiPaintshop.objective XZ →
  MultiPaintshop.optimal cars dw db XZ'.
Proof.
  intros [_ Hmin] HF Heq. split; [done|]. intros Y HY. rewrite Heq. by apply Hmin.
Qed.

Lemma least_by_search cars dw db f v X0 :
  meets cars dw db X0 ∧ f X0 = v →
  Forall (λ X, meets cars dw db X → v ≤ f X) (all_levels (length cars)) →
  least cars dw db f v.
Proof.
  intros H0 Hall. split; [by exists X0|]. intros X HX.
  rewrite Forall_forall in Hall. apply Hall; [|done].
  destruct HX as (_ & _ & Hl & _). by apply all_levels_complete.
Qed.

Lemma least_binary_by_search cars f v X0 :
  Paintshop.feasible cars X0 ∧ f X0 = v →
  Forall (λ X, Paintshop.feasible cars X → v ≤ f X) (all_levels (length cars)) →
  least_binary cars f v.
Proof.
  intros H0 Hall. split; [by exists X0|]. intros X HX.
  rewrite Forall_forall in Hall. apply Hall; [|done].
  destruct HX as [Hl _]. by apply all_levels_complete.
Qed.

(** On a valid model the heuristic returns an assignment that meets the
    demand table. *)
Lemma valid_model_heuristic cars dw db :
  valid_model cars dw db →
  ∃ r n, Multi.heuristic cars dw db = inr (r, n) ∧ satisfies_demand cars dw db r.
Proof.
  intros HV.
  apply (multi_heuristic_covers cars dw db (valid_model_covers _ _ _ HV)).
Qed.


(** On a valid model a feasible level shows that no two types have one
    label: the parameters are there. *)
Lemma feasible_distinct cars dw db XZ :
  valid_model cars dw db → MultiPaintshop.feasible cars dw db XZ →
  distinct_labels cars.
Proof.
  destruct XZ as [X Zv]. intros HV (Rw & _). by eapply valid_model_distinct.
Qed.











(** For the cars A B B the level 0 1 0 of [X] is an optimum. *)
Lemma optimal_ABB :
  MultiPaintshop.optimal cars_ABB white_ABB black_ABB
    ([false; true; false], [true; true; false]).
Proof.
  apply (optimal_same_objective _ _ _ ([false; false; true], [false; true; true])).
  - apply solve_Some. vm_compute. reflexivity.
  - by_evaluation.
  - vm_compute. reflexivity.
Qed.

(** ** Types that differ only in case *)

(** On the cars a A a A every type occurs twice, but the set [j] of
    [paintshop] has one element and [equation_two] one row over the four
    positions: the solve returns the level 1 0 0 0, which paints one car of
    the four black. *)
Lemma paintshop_one_label :
  binary_variant ["a"; "A"; "a"; "A"]%string ∧
  Paintshop.solve ["a"; "A"; "a"; "A"]%string = Some [true; false; false; false].
Proof. split; [by_evaluation|vm_compute; reflexivity]. Qed.

(** On the cars a A b a A b the level 0 0 0 0 1 1 is an optimum of
    [paintshop], with level 1 at the last position and objective value 2. *)
Lemma paintshop_merged_rows :
  binary_variant ["a"; "A"; "b"; "a"; "A"; "b"]%string ∧
  Paintshop.optimal ["a"; "A"; "b"; "a"; "A"; "b"]%string
    [false; false; false; false; true; true] ∧
  Paintshop.obj [false; false; false; false; true; true] = 2.
Proof.
  split_and!; [by_evaluation| |reflexivity]. split; [by_evaluation|].
  intros Y HY.
  assert (Forall (λ X, Paintshop.feasible ["a"; "A"; "b"; "a"; "A"; "b"]%string X →
                       2 ≤ Paintshop.obj X) (all_levels 6)) as Hall by by_evaluation.
  rewrite Forall_forall in Hall. apply Hall; [|done].
  destruct HY as [Hl _]. by apply all_levels_complete.
Qed.

(** With one record for the label of a and A in each parameter, the demand
    rows of [MultiPaintshop] on the cars a A run over both cars: with white
    demand 2 and black demand 0 the level 0 0 meets them. *)
Lemma multi_paintshop_one_label :
  MultiPaintshop.feasible cars_aA {[ "a"%string := 2 ]} {[ "a"%string := 0 ]}
    ([false; false], [false; false]).
Proof. by_evaluation. Qed.

(** ** The binary instance of the notebook *)

(** C1: on the sequence A D E B A F C B C D E F, where every type occurs
    twice, the solve of [paintshop] returns a level of [X] with objective
    value 2 whose colouring has ChangeCount 2; 2 is the least number of
    adjacent state changes over all levels that meet the demand rows, and
    the returned level attains it. *)
Theorem C1_exact_optimum_of_sequence :
  binary_variant sequence ∧
  Paintshop.solve sequence = Some X_sequence ∧
  Paintshop.optimal sequence X_sequence ∧
  Paintshop.objective_value sequence = Some 2 ∧
  ChangeCount (coloring X_sequence) = 2 ∧
  adjacent_changes (coloring X_sequence) = 2 ∧
  least_binary sequence (λ X, adjacent_changes (coloring X)) 2 ∧
  least_binary sequence (λ X, ChangeCount (coloring X)) 2.
Proof.
  assert (Paintshop.solve sequence = Some X_sequence) as Hs
    by (vm_compute; reflexivity).
  split_and!.
  - by_evaluation.
  - exact Hs.
  - by apply paintshop_solve_Some.
  - unfold Paintshop.objective_value. rewrite Hs. vm_compute. reflexivity.
  - vm_compute. reflexivity.
  - vm_compute. reflexivity.
  - apply (least_binary_by_search _ _ _ X_sequence); by_evaluation.
  - apply (least_binary_by_search _ _ _ X_sequence); by_evaluation.
Qed.

(** Whatever optimal level a solver returns on that sequence, its objective
    value is 2 and its colouring changes state twice. *)
Lemma sequence_every_optimum X :
  Paintshop.optimal sequence X →
  Paintshop.obj X = 2 ∧ adjacent_changes (coloring X) = 2 ∧
  ChangeCount (coloring X) = 2.
Proof.
  intros [HF Hmin].
  assert (Paintshop.feasible sequence X_sequence) as H0 by by_evaluation.
  specialize (Hmin _ H0). change (Paintshop.obj X_sequence) with 2 in Hmin.
  assert (Forall (λ X, Paintshop.feasible sequence X → Paintshop.obj X ≤ 2 →
                       Paintshop.obj X = 2 ∧ adjacent_changes (coloring X) = 2 ∧
                       ChangeCount (coloring X) = 2)
            (all_levels (length sequence))) as Hall by by_evaluation.
  rewrite Forall_forall in Hall. apply Hall; [|done..].
  destruct HF as [Hl _]. by apply all_levels_complete.
Qed.

(** C2: on the same sequence the set-based heuristic returns the
    assignment white white white white black black black black white black
    black white and reports 4 changes. *)
Theorem C2_greedy_on_sequence :
  Binary.heuristic sequence =
  ([white; white; white; white; black; black; black; black;
    white; black; black; white], 4).
Proof. vm_compute. reflexivity. Qed.

(** ** Feasibility of what the solvers return *)




(** ** The heuristic against the least number of changes *)

(** On a valid model neither the assignment of the heuristic nor the count
    it reports is below the least number of adjacent state changes over the
    levels that meet the demand rows. *)
Lemma heuristic_above_least_changes cars dw db r n v :
  valid_model cars dw db →
  Multi.heuristic cars dw db = inr (r, n) →
  least cars dw db (λ X, adjacent_changes (coloring X)) v →
  v ≤ adjacent_changes r ∧ adjacent_changes r ≤ n.
Proof.
  intros HV Hh [(Y & (Rw & _) & _) Hleast].
  pose proof (valid_model_distinct _ _ _ HV Rw) as Hd.
  destruct (multi_heuristic_covers cars dw db (valid_model_covers _ _ _ HV))
    as (r' & n' & Hh' & Hs).
  rewrite Hh in Hh'. simplify_eq.
  specialize (Hleast (levels r') (satisfies_meets _ _ _ _ HV Hd Hs)).
  simpl in Hleast. rewrite coloring_levels in Hleast.
  apply multi_heuristic_inr in Hh as [_ ->].
  rewrite adjacent_changes_white. case_bool_decide; lia.
Qed.

(** ** The heuristic against the reported optimum *)

(** C4: evaluation on two valid models.  For the cars A B with A white and
    B black, the heuristic reports 1 change and the solve of
    [MultiPaintshop] reports the optimum 2, so the heuristic's count is
    below the optimiser's.  For the cars A B B with one white A, one white
    and one black B, the level 0 1 0 of [X] is an optimum of the model, and
    its colouring changes state twice where the heuristic's assignment
    changes state once. *)
Theorem C4_heuristic_below_reported_optimum :
  (valid_model cars_AB white_AB black_AB ∧
   Multi.heuristic cars_AB white_AB black_AB = inr ([white; black], 1) ∧
   MultiPaintshop.solve cars_AB white_AB black_AB = Some ([false; true], [true; true]) ∧
   MultiPaintshop.objective_value cars_AB white_AB black_AB = Some 2) ∧
  (valid_model cars_ABB white_ABB black_ABB ∧
   Multi.heuristic cars_ABB white_ABB black_ABB = inr ([white; white; black], 1) ∧
   adjacent_changes [white; white; black] = 1 ∧
   MultiPaintshop.optimal cars_ABB white_ABB black_ABB
     ([false; true; false], [true; true; false]) ∧
   coloring [false; true; false] = [white; black; white] ∧
   adjacent_changes [white; black; white] = 2).
Proof.
  split; split_and!.
  - by_evaluation.
  - vm_compute. reflexivity.
  - vm_compute. reflexivity.
  - vm_compute. reflexivity.
  - by_evaluation.
  - vm_compute. reflexivity.
  - reflexivity.
  - exact optimal_ABB.
  - reflexivity.
  - reflexivity.
Qed.

(** ** The reported counts against a recount *)

(** C5 does not hold as stated.  On the valid model of one car that is
    to be painted black the heuristic flips before it paints and reports 1
    change, and the model reports the optimum 1, while an assignment of one
    position has ChangeCount 0.  On the binary instance of the notebook the
    heuristic reports 4 changes, while the indices 0 to 9 of its assignment
    show 3. *)
Lemma C5_counterexample :
  (valid_model cars_A white_A black_A ∧
   Multi.heuristic cars_A white_A black_A = inr ([black], 1) ∧
   ChangeCount [black] = 0 ∧
   MultiPaintshop.solve cars_A white_A black_A = Some ([true], [true]) ∧
   MultiPaintshop.objective_value cars_A white_A black_A = Some 1 ∧
   ChangeCount (coloring [true]) = 0) ∧
  (valid_model sequence (binary_demand sequence) (binary_demand sequence) ∧
   Multi.heuristic sequence (binary_demand sequence) (binary_demand sequence) =
     inr ([white; white; white; white; black; black; black; black;
           white; black; black; white], 4) ∧
   ChangeCount [white; white; white; white; black; black; black; black;
                white; black; black; white] = 3).
Proof.
  split; split_and!; try by_evaluation; vm_compute; reflexivity.
Qed.

(** C5, amended: on every valid problem model the heuristic returns, and
    the number of changes it reports is the number of indices i in
    [0, N-1) at which its assignment changes state, plus one when the first
    position is black (the flip away from the initial white state is
    counted); the objective value of an optimum of the model whose last
    position is white is the number of indices i in [0, N-1) at which its
    colouring changes state. *)
Theorem C5_reported_changes cars dw db :
  valid_model cars dw db →
  (∃ r n, Multi.heuristic cars dw db = inr (r, n) ∧
          n = adjacent_changes r +
              (if bool_decide (head r = Some black) then 1 else 0)) ∧
  (∀ X Zv, MultiPaintshop.optimal cars dw db (X, Zv) →
           lvl X (length cars - 1) = 0 →
           MultiPaintshop.objective (X, Zv) = adjacent_changes (coloring X)).
Proof.
  intros HV. split.
  - destruct (valid_model_heuristic cars dw db HV) as (r & n & Hh & _).
    exists r, n. split; [done|].
    apply multi_heuristic_inr in Hh as [_ ->]. apply adjacent_changes_white.
  - intros X Zv HO Hlast. rewrite (optimal_objective _ _ _ _ _ HO). lia.
Qed.

Lemma C5_reported_changes_witness :
  valid_model cars_ABB white_ABB black_ABB ∧
  (∃ r n, Multi.heuristic cars_ABB white_ABB black_ABB = inr (r, n) ∧
          n = adjacent_changes r +
              (if bool_decide (head r = Some black) then 1 else 0)) ∧
  MultiPaintshop.objective ([false; true; false], [true; true; false]) =
    adjacent_changes (coloring [false; true; false]).
Proof.
  assert (valid_model cars_ABB white_ABB black_ABB) as HV by by_evaluation.
  destruct (C5_reported_changes cars_ABB white_ABB black_ABB HV) as [Hg Ho].
  split_and!; [exact HV|exact Hg|].
  apply Ho; [exact optimal_ABB|reflexivity].
Defined.

(** ** The optimum of the linearised program *)

(** C6: evaluation on the valid model of the cars A B with A white and B
    black.  The only level of [X] that meets the demand rows is 0 1, whose
    colouring changes state once; the rows of [LinearizeObjective1] and
    [LinearizeObjective2] at the last position force [Z] to 1 there as
    well, and the least value of the sum of [Z] is 2. *)
Theorem C6_optimum_above_least_changes :
  valid_model cars_AB white_AB black_AB ∧
  MultiPaintshop.objective_value cars_AB white_AB black_AB = Some 2 ∧
  least cars_AB white_AB black_AB cost 2 ∧
  least cars_AB white_AB black_AB (λ X, adjacent_changes (coloring X)) 1 ∧
  least cars_AB white_AB black_AB (λ X, ChangeCount (coloring X)) 0.
Proof.
  split_and!; [by_evaluation|vm_compute; reflexivity|..];
    apply (least_by_search _ _ _ _ _ [false; true]); by_evaluation.
Qed.

(** ** All demand white *)




(** ** Capacity exhausted in both states *)

(** C8 does not hold as stated.  With two cars of type A and a table
    that asks for one white A and no black A, the scan reaches the second
    car in the white state with capacity 0 for A in white and in black; it
    does not fail, it returns the assignment white black with 1 change. *)
Lemma C8_counterexample :
  Multi.loop (Multi.init white_AA black_AA) ["A"%string] =
    inr (Multi.State 0 (Colors {[ "A"%string := 0 ]} {[ "A"%string := 0 ]})
           [white] white) ∧
  Multi.heuristic cars_AA white_AA black_AA = inr ([white; black], 1).
Proof. split; vm_compute; reflexivity. Qed.

(** C8, amended: if at some position the current state has no capacity
    left for the car's type and the other state has none either, the
    heuristic does not fail: the step counts one change, flips the state,
    paints the car in the new state and takes its capacity below zero, and
    the scan goes on to paint every remaining car. *)
Theorem C8_no_capacity_left st car rest n m :
  cget (Multi.current_color st) (Multi.colors st) !! car = Some n → n ≤ 0 →
  cget (flip (Multi.current_color st)) (Multi.colors st) !! car = Some m → m ≤ 0 →
  Forall (λ t, is_Some (at_white (Multi.colors st) !! t) ∧
               is_Some (at_black (Multi.colors st) !! t)) rest →
  Multi.step st car =
    inr (Multi.State (Multi.changes st + 1)
           (cset (flip (Multi.current_color st))
              (<[car := m - 1]> (cget (flip (Multi.current_color st)) (Multi.colors st)))
              (Multi.colors st))
           (Multi.result st ++ [flip (Multi.current_color st)])
           (flip (Multi.current_color st))) ∧
  m - 1 < 0 ∧
  ∃ st', Multi.loop st (car :: rest) = inr st' ∧
         length (Multi.result st') = (length (Multi.result st) + S (length rest))%nat.
Proof.
  intros Hn Hn0 Hm Hm0 HK.
  assert (Multi.step st car =
    inr (Multi.State (Multi.changes st + 1)
           (cset (flip (Multi.current_color st))
              (<[car := m - 1]> (cget (flip (Multi.current_color st)) (Multi.colors st)))
              (Multi.colors st))
           (Multi.result st ++ [flip (Multi.current_color st)])
           (flip (Multi.current_color st)))) as Hs.
  { unfold Multi.step, Multi.paint_car. rewrite Hn.
    rewrite bool_decide_eq_false_2 by lia. by rewrite Hm. }
  split_and!; [done|lia|].
  simpl. rewrite Hs.
  match goal with |- ∃ _, Multi.loop ?s _ = _ ∧ _ => set (st1 := s) end.
  destruct (loop_keys rest st1) as [st' Hl].
  - intros t Ht. rewrite Forall_forall in HK. destruct (HK t Ht) as [[w Hw] [b Hb]].
    pose proof (lookup_after_paint (Multi.colors st) _ car m white t Hm) as H1.
    pose proof (lookup_after_paint (Multi.colors st) _ car m black t Hm) as H2.
    simpl in H1, H2. subst st1. simpl. rewrite H1, H2, Hw, Hb. simpl. eauto.
  - exists st'. split; [done|].
    apply loop_inr in Hl as (r & -> & Hlen & _). subst st1. simpl.
    rewrite !length_app. simpl. lia.
Qed.

Lemma C8_no_capacity_left_witness :
  ∃ st', Multi.loop
           (Multi.State 0 (Colors {[ "A"%string := 0 ]} {[ "A"%string := 0 ]})
              [white] white) ["A"%string] = inr st' ∧
         length (Multi.result st') = 2%nat.
Proof.
  destruct (C8_no_capacity_left
              (Multi.State 0 (Colors {[ "A"%string := 0 ]} {[ "A"%string := 0 ]})
                 [white] white) "A"%string [] 0 0)
    as (_ & _ & st' & Hl & Hlen).
  - vm_compute. reflexivity.
  - lia.
  - vm_compute. reflexivity.
  - lia.
  - by_evaluation.
  - exists st'. split; [exact Hl|exact Hlen].
Defined.

(** ** The demand table left out *)




(** ** The two heuristics on the binary variant *)

(** C10: on every instance of the binary variant, each type occurring
    exactly twice with white and black demand 1, the capacity-based
    heuristic returns the assignment and the number of changes that the
    set-based heuristic returns. *)
Theorem C10_heuristics_agree cars dw db :
  binary_variant cars →
  Forall (λ t, dw !! t = Some 1 ∧ db !! t = Some 1) cars →
  Multi.heuristic cars dw db = inr (Binary.heuristic cars).
Proof.
  intros _ H1. apply heuristics_agree. by apply Forall_forall.
Qed.

Lemma C10_heuristics_agree_witness :
  binary_variant sequence ∧
  Forall (λ t, binary_demand sequence !! t = Some 1 ∧
               binary_demand sequence !! t = Some 1) sequence ∧
  Multi.heuristic sequence (binary_demand sequence) (binary_demand sequence) =
    inr (Binary.heuristic sequence).
Proof.
  assert (binary_variant sequence) as HB by by_evaluation.
  assert (Forall (λ t, binary_demand sequence !! t = Some 1 ∧
                       binary_demand sequence !! t = Some 1) sequence) as H1
    by by_evaluation.
  split_and!; [done..|].
  exact (C10_heuristics_agree sequence _ _ HB H1).
Defined.


(** * Further properties of the notebook's code *)

Lemma count_notin cars t : t ∉ cars → count cars t = 0.
Proof.
  induction cars as [|c cars IH]; intros H; [reflexivity|].
  rewrite count_cons. apply not_elem_of_cons in H as [? ?].
  rewrite bool_decide_eq_false_2 by done. rewrite IH by done. lia.
Qed.

Lemma adjacent_changes_le c r : adjacent_changes (c :: r) ≤ Z.of_nat (length r).
Proof.
  revert c. induction r as [|x r IH]; intros c.
  - rewrite adjacent_changes_one. simpl. lia.
  - rewrite adjacent_changes_cons. specialize (IH x). simpl length.
    case_bool_decide; lia.
Qed.

(** ** Exceptions of the capacity-based scan *)

Lemma step_inl st car e :
  Multi.step st car = inl e →
  e = KeyError car ∧
  (at_white (Multi.colors st) !! car = None ∨ at_black (Multi.colors st) !! car = None).
Proof.
  unfold Multi.step, Multi.paint_car.
  destruct (Multi.current_color st); simpl;
    destruct (at_white (Multi.colors st) !! car) as [w|] eqn:Hw;
    destruct (at_black (Multi.colors st) !! car) as [b|] eqn:Hb;
    repeat case_bool_decide; intros Hstep; simplify_eq; eauto.
Qed.

Lemma loop_inl cars : ∀ st e,
  Multi.loop st cars = inl e →
  ∃ k, e = KeyError k ∧ k ∈ cars ∧
       (at_white (Multi.colors st) !! k = None ∨
        at_black (Multi.colors st) !! k = None).
Proof.
  induction cars as [|car rest IH]; intros st e H; simpl in H; [done|].
  destruct (Multi.step st car) as [e'|st1] eqn:Hs.
  - simplify_eq. apply step_inl in Hs as [-> Hk]. exists car.
    split_and!; [done|left|done].
  - apply IH in H as (k & -> & Hin & Hk). exists k.
    split_and!; [done|by right|].
    apply step_inr in Hs as (c & n & Hn & ->). simpl in Hk.
    pose proof (lookup_after_paint (Multi.colors st) c car n white k Hn) as H1.
    pose proof (lookup_after_paint (Multi.colors st) c car n black k Hn) as H2.
    simpl in H1, H2. rewrite H1, H2 in Hk.
    destruct Hk as [Hk|Hk]; apply fmap_None in Hk; eauto.
Qed.

(** X1: the capacity-based heuristic raises nothing but [KeyError], and
    only for a type of the sequence that [demand_white] or [demand_black]
    has no entry for. *)
Theorem X1_heuristic_raises_missing_key cars dw db e :
  Multi.heuristic cars dw db = inl e →
  ∃ k, e = KeyError k ∧ k ∈ cars ∧ (dw !! k = None ∨ db !! k = None).
Proof.
  unfold Multi.heuristic, Multi.run. intros H.
  destruct (Multi.loop (Multi.init dw db) cars) as [e'|st] eqn:Hl; [|done].
  simplify_eq. by apply loop_inl in Hl.
Qed.

Lemma X1_heuristic_raises_missing_key_witness :
  Multi.heuristic cars_AB white_A_only black_AB = inl (KeyError "B"%string) ∧
  ∃ k, KeyError "B"%string = KeyError k ∧ k ∈ cars_AB ∧
       (white_A_only !! k = None ∨ black_AB !! k = None).
Proof.
  assert (Multi.heuristic cars_AB white_A_only black_AB = inl (KeyError "B"%string))
    as H by (vm_compute; reflexivity).
  split; [exact H|].
  exact (X1_heuristic_raises_missing_key cars_AB white_A_only black_AB _ H).
Defined.

(** X2: when every type of the sequence has an entry in both demand
    dictionaries the capacity-based heuristic returns, whatever the demands
    are (negative, too small or too large), with one coating per car. *)
Theorem X2_heuristic_returns_on_present_keys cars dw db :
  Forall (λ t, is_Some (dw !! t) ∧ is_Some (db !! t)) cars →
  ∃ r n, Multi.heuristic cars dw db = inr (r, n) ∧ length r = length cars.
Proof.
  intros HK. unfold Multi.heuristic, Multi.run.
  destruct (loop_keys cars (Multi.init dw db)) as [st Hl].
  { intros t Ht. rewrite Forall_forall in HK. by apply HK. }
  rewrite Hl. do 2 eexists. split; [done|].
  apply loop_inr in Hl as (r & Hr & Hlen & _). simpl in Hr. by rewrite Hr.
Qed.

Lemma X2_heuristic_returns_on_present_keys_witness :
  ∃ r n, Multi.heuristic cars_AA white_AA black_AA = inr (r, n) ∧
         length r = length cars_AA.
Proof.
  apply (X2_heuristic_returns_on_present_keys cars_AA white_AA black_AA).
  by_evaluation.
Defined.

(** X3: the bookkeeping of a scan that returns is exact.  For every type
    and coating the capacity left is the demand less the number of cars of
    the type painted in the coating; no entry is added to or removed from
    the dictionaries. *)
Theorem X3_capacities_record_painted cars dw db st :
  Multi.run cars dw db = inr st →
  length (Multi.result st) = length cars ∧
  ∀ c t, cget c (Multi.colors st) !! t =
         (λ v, v - assigned cars (Multi.result st) t c) <$> cget c (Colors dw db) !! t.
Proof.
  unfold Multi.run. intros Hl.
  apply loop_inr in Hl as (r & Hr & Hlen & _ & Hd). simpl in Hr.
  rewrite Hr. split; [done|]. intros c t. apply Hd.
Qed.

Lemma X3_capacities_record_painted_witness :
  ∃ st, Multi.run cars_AA white_AA black_AA = inr st ∧
        at_black (Multi.colors st) !! "A"%string =
        Some (0 - assigned cars_AA (Multi.result st) "A"%string black).
Proof.
  destruct (Multi.run cars_AA white_AA black_AA) as [e|st] eqn:H;
    [vm_compute in H; discriminate|].
  exists st. split; [reflexivity|].
  destruct (X3_capacities_record_painted cars_AA white_AA black_AA st H) as [_ Hd].
  exact (Hd black "A"%string).
Defined.

(** X4: the number of changes the capacity-based heuristic reports is
    never negative and never above the number of cars; it is the number of
    adjacent state changes of the assignment or one more. *)
Theorem X4_reported_changes_bounds cars dw db r n :
  Multi.heuristic cars dw db = inr (r, n) →
  0 ≤ n ≤ Z.of_nat (length cars) ∧
  adjacent_changes r ≤ n ≤ adjacent_changes r + 1.
Proof.
  intros H. apply multi_heuristic_inr in H as [Hl ->].
  pose proof (adjacent_changes_le white r).
  pose proof (adjacent_changes_nonneg (white :: r)).
  rewrite adjacent_changes_white in *. case_bool_decide; lia.
Qed.

Lemma X4_reported_changes_bounds_witness :
  0 ≤ 1 ≤ Z.of_nat (length cars_AB) ∧
  adjacent_changes [white; black] ≤ 1 ≤ adjacent_changes [white; black] + 1.
Proof.
  apply (X4_reported_changes_bounds cars_AB white_AB black_AB [white; black] 1).
  vm_compute. reflexivity.
Defined.

(** ** The set-based heuristic on any sequence *)

(** X5: on every sequence the set-based heuristic returns one coating per
    car, paints the first car white, and reports as changes exactly the
    number of adjacent state changes of its assignment. *)
Theorem X5_binary_heuristic_counts_changes cars :
  length (Binary.heuristic cars).1 = length cars ∧
  (Binary.heuristic cars).1 !! 0%nat = (λ _, white) <$> cars !! 0%nat ∧
  (Binary.heuristic cars).2 = adjacent_changes (Binary.heuristic cars).1.
Proof.
  destruct cars as [|car rest]; [by split_and!|].
  destruct (binary_heuristic_shape car rest) as (r' & -> & Hlen). cbn [fst snd].
  split_and!; [simpl; by rewrite Hlen|done|done].
Qed.

(** ** Capacities below zero *)

Lemma step_balanced st car st' :
  balanced (Multi.colors st) → Multi.step st car = inr st' →
  balanced (Multi.colors st').
Proof.
  intros HB Hs. pose proof Hs as Hs'.
  apply step_inr in Hs' as (c & n & Hn & ->). simpl.
  assert (c = Multi.current_color st ∧ n > 0 ∨
          c = flip (Multi.current_color st) ∧
          ∃ k, cget (Multi.current_color st) (Multi.colors st) !! car = Some k ∧
               k ≤ 0) as Hbranch.
  { unfold Multi.step, Multi.paint_car in Hs.
    destruct (cget (Multi.current_color st) (Multi.colors st) !! car)
      as [k|] eqn:Hk; [|done].
    case_bool_decide as Hpos.
    - left. assert (Multi.current_color st = c) as Hc by congruence.
      subst c. rewrite Hk in Hn. by simplify_eq.
    - right. destruct (cget (flip _) _ !! car) eqn:Hm; [|done].
      assert (flip (Multi.current_color st) = c) as Hc by congruence.
      split; [done|]. exists k. split; [done|lia]. }
  intros t w b.
  pose proof (lookup_after_paint (Multi.colors st) c car n white t Hn) as H1.
  pose proof (lookup_after_paint (Multi.colors st) c car n black t Hn) as H2.
  simpl in H1, H2. rewrite H1, H2. clear H1 H2.
  destruct (at_white (Multi.colors st) !! t) as [w0|] eqn:Hw0; [|done].
  destruct (at_black (Multi.colors st) !! t) as [b0|] eqn:Hb0; [|done].
  simpl. intros ? ?. simplify_eq.
  destruct (HB t w0 b0 Hw0 Hb0) as [HB1 HB2].
  destruct (decide (car = t)) as [->|Hne]; [|decide_bools; lia].
  destruct Hbranch as [[-> Hpos]|[-> (k & Hk & Hk0)]];
    destruct (Multi.current_color st); simpl in *; simplify_eq;
    decide_bools; lia.
Qed.

Lemma loop_balanced cars : ∀ st st',
  balanced (Multi.colors st) → Multi.loop st cars = inr st' →
  balanced (Multi.colors st').
Proof.
  induction cars as [|car rest IH]; intros st st' HB Hl; simpl in Hl.
  - by simplify_eq.
  - destruct (Multi.step st car) as [e|st1] eqn:Hs; [done|].
    eapply IH; [|done]. by eapply step_balanced.
Qed.

(** With demands that are not negative the heuristic paints within the
    demand of a type that has enough of it, and up to the demand of a type
    that has too little. *)
Lemma multi_heuristic_balanced cars dw db r n :
  map_Forall (λ _ v, 0 ≤ v) dw → map_Forall (λ _ v, 0 ≤ v) db →
  Multi.heuristic cars dw db = inr (r, n) →
  ∀ t w b, dw !! t = Some w → db !! t = Some b →
    (count cars t ≤ w + b →
     assigned cars r t white ≤ w ∧ assigned cars r t black ≤ b) ∧
    (w + b ≤ count cars t →
     w ≤ assigned cars r t white ∧ b ≤ assigned cars r t black).
Proof.
  intros Hdw Hdb. unfold Multi.heuristic, Multi.run. intros Hh.
  destruct (Multi.loop (Multi.init dw db) cars) as [e|st] eqn:Hl; [done|].
  simplify_eq. intros t w b Hw Hb.
  assert (balanced (Multi.colors st)) as HB.
  { eapply loop_balanced; [|done]. intros t' w' b' Hw' Hb'. simpl in *.
    pose proof (Hdw _ _ Hw'). pose proof (Hdb _ _ Hb'). simpl in *. lia. }
  apply loop_inr in Hl as (r & Hr & Hlen & _ & Hd). simpl in Hr. rewrite Hr.
  pose proof (Hd white t) as H1. pose proof (Hd black t) as H2.
  simpl in H1, H2. rewrite Hw in H1. rewrite Hb in H2. simpl in H1, H2.
  destruct (HB t _ _ H1 H2) as [HB1 HB2].
  pose proof (assigned_total cars r t Hlen). split; intros; lia.
Qed.

(** X6: with demands that are not negative, the capacity-based heuristic
    never paints more cars of a type in a coating than the table asks for
    when the two demands of the type together are at least its count, and
    paints at least as many as the table asks for in either coating when
    they together are at most its count. *)
Theorem X6_heuristic_within_demand cars dw db r n :
  map_Forall (λ _ v, 0 ≤ v) dw → map_Forall (λ _ v, 0 ≤ v) db →
  Multi.heuristic cars dw db = inr (r, n) →
  ∀ t w b, dw !! t = Some w → db !! t = Some b →
    (count cars t ≤ w + b →
     assigned cars r t white ≤ w ∧ assigned cars r t black ≤ b) ∧
    (w + b ≤ count cars t →
     w ≤ assigned cars r t white ∧ b ≤ assigned cars r t black).
Proof. apply multi_heuristic_balanced. Qed.

Lemma X6_heuristic_within_demand_witness :
  (count cars_AA "A"%string ≤ 1 + 0 →
   assigned cars_AA [white; black] "A"%string white ≤ 1 ∧
   assigned cars_AA [white; black] "A"%string black ≤ 0) ∧
  (1 + 0 ≤ count cars_AA "A"%string →
   1 ≤ assigned cars_AA [white; black] "A"%string white ∧
   0 ≤ assigned cars_AA [white; black] "A"%string black).
Proof.
  apply (X6_heuristic_within_demand cars_AA white_AA black_AA [white; black] 1).
  - by_evaluation.
  - by_evaluation.
  - vm_compute. reflexivity.
  - vm_compute. reflexivity.
  - vm_compute. reflexivity.
Defined.

(** X7: on every sequence the set-based heuristic paints a type that
    occurs at least twice in both coatings, at least one car white and at
    least one car black. *)
Theorem X7_binary_heuristic_both_coatings cars t :
  2 ≤ count cars t →
  1 ≤ assigned cars (Binary.heuristic cars).1 t white ∧
  1 ≤ assigned cars (Binary.heuristic cars).1 t black.
Proof.
  intros H2.
  assert (t ∈ cars) as Hin.
  { destruct (decide (t ∈ cars)) as [|Hn]; [done|].
    rewrite (count_notin _ _ Hn) in H2. lia. }
  pose (bd := binary_demand cars).
  assert (∀ s, s ∈ cars → bd !! s = Some 1) as Hbd.
  { intros s Hs. unfold bd. by rewrite lookup_binary_demand, bool_decide_eq_true_2. }
  assert (map_Forall (λ _ v, 0 ≤ v) bd) as Hnn.
  { intros s v Hv. unfold bd in Hv. rewrite lookup_binary_demand in Hv.
    case_bool_decide; simplify_eq. simpl. lia. }
  assert (Multi.heuristic cars bd bd = inr (Binary.heuristic cars)) as Hagree.
  { apply heuristics_agree. intros s Hs. by rewrite Hbd. }
  destruct (Binary.heuristic cars) as [r n]. simpl.
  destruct (multi_heuristic_balanced cars bd bd r n Hnn Hnn Hagree t 1 1
              (Hbd t Hin) (Hbd t Hin)) as [_ Hlow].
  apply Hlow. lia.
Qed.

Lemma X7_binary_heuristic_both_coatings_witness :
  1 ≤ assigned cars_AAA (Binary.heuristic cars_AAA).1 "A"%string white ∧
  1 ≤ assigned cars_AAA (Binary.heuristic cars_AAA).1 "A"%string black.
Proof.
  apply (X7_binary_heuristic_both_coatings cars_AAA "A"%string).
  vm_compute. discriminate.
Defined.

(** ** The linearised objective *)

(** X8: the rows [LinearizeObjective1] and [LinearizeObjective2] linearise
    the objective of [paintshop].  For a level of [X] that meets the demand
    rows, every level of [Z] that meets the two rows sums to at least
    [gp.Sum(i, sqr(X[i] - X[i.lead(1)]))], and the level of [Z] that is 1
    exactly where [X[i]] and [X[i.lead(1)]] differ meets them with that
    sum. *)
Theorem X8_linearisation_exact cars dw db X :
  meets cars dw db X →
  MultiPaintshop.feasible cars dw db (X, tight X) ∧
  MultiPaintshop.objective (X, tight X) = Paintshop.obj X ∧
  ∀ Zv, MultiPaintshop.feasible cars dw db (X, Zv) →
        Paintshop.obj X ≤ MultiPaintshop.objective (X, Zv).
Proof.
  intros HM. destruct (meets_tight cars dw db X HM) as [HF Ho].
  rewrite paintshop_obj_cost. split_and!; [done..|].
  intros Zv HZ. by apply (feasible_cost cars dw db).
Qed.

Lemma X8_linearisation_exact_witness :
  MultiPaintshop.feasible cars_AB white_AB black_AB ([false; true], tight [false; true]) ∧
  MultiPaintshop.objective ([false; true], tight [false; true]) =
    Paintshop.obj [false; true] ∧
  ∀ Zv, MultiPaintshop.feasible cars_AB white_AB black_AB ([false; true], Zv) →
        Paintshop.obj [false; true] ≤ MultiPaintshop.objective ([false; true], Zv).
Proof.
  apply (X8_linearisation_exact cars_AB white_AB black_AB [false; true]).
  by_evaluation.
Defined.

(** ** Demand rows that cannot be met *)




(** ** The reported optimum *)

(** X10: the objective value of an optimum of [MultiPaintshop] is the
    number of adjacent state changes of its colouring plus the level of
    [X] at the last position; it is the least number of adjacent state
    changes over the levels that meet the demand rows, or one more. *)
Theorem X10_reported_optimum cars dw db X Zv v :
  MultiPaintshop.optimal cars dw db (X, Zv) →
  least cars dw db (λ Y, adjacent_changes (coloring Y)) v →
  MultiPaintshop.objective (X, Zv) =
    adjacent_changes (coloring X) + lvl X (length cars - 1) ∧
  v ≤ MultiPaintshop.objective (X, Zv) ≤ v + 1.
Proof.
  intros HO [(Y & HY & HvY) Hleast].
  pose proof (optimal_objective _ _ _ _ _ HO) as Hobj.
  pose proof HO as [HF _]. apply feasible_meets in HF.
  specialize (Hleast X HF). simpl in Hleast.
  apply optimal_least in HO as [Hc [_ Hmin]]. specialize (Hmin Y HY).
  rewrite (cost_changes Y) in Hmin.
  pose proof (lvl_range X (length cars - 1)).
  pose proof (lvl_range Y (length Y - 1)). split; [done|]. lia.
Qed.

Lemma X10_reported_optimum_witness :
  MultiPaintshop.objective ([false; true], [true; true]) =
    adjacent_changes (coloring [false; true]) + lvl [false; true] (length cars_AB - 1) ∧
  1 ≤ MultiPaintshop.objective ([false; true], [true; true]) ≤ 1 + 1.
Proof.
  apply (X10_reported_optimum cars_AB white_AB black_AB).
  - apply solve_Some. vm_compute. reflexivity.
  - apply (least_by_search _ _ _ _ _ [false; true]); by_evaluation.
Defined.

(** X11: on a valid problem model the optimum that [MultiPaintshop]
    reports is at most one above the number of changes the heuristic
    reports, and the colouring of the optimum changes state at most once
    more than the assignment of the heuristic. *)
Theorem X11_optimum_against_heuristic cars dw db r n XZ :
  valid_model cars dw db →
  Multi.heuristic cars dw db = inr (r, n) →
  MultiPaintshop.optimal cars dw db XZ →
  MultiPaintshop.objective XZ ≤ n + 1 ∧
  adjacent_changes (coloring XZ.1) ≤ adjacent_changes r + 1.
Proof.
  intros HV Hh HO. destruct XZ as [X Zv]. simpl.
  destruct (multi_heuristic_covers cars dw db (valid_model_covers _ _ _ HV))
    as (r' & n' & Hh' & Hs).
  rewrite Hh in Hh'. simplify_eq.
  pose proof (feasible_distinct _ _ _ _ HV (proj1 HO)) as Hd.
  pose proof (satisfies_meets _ _ _ _ HV Hd Hs) as HM.
  pose proof (optimal_objective _ _ _ _ _ HO) as Hobj.
  apply optimal_least in HO as [Hc [_ Hmin]]. specialize (Hmin _ HM).
  rewrite (cost_changes (levels r')), coloring_levels in Hmin.
  apply multi_heuristic_inr in Hh as [_ ->].
  rewrite adjacent_changes_white.
  pose proof (lvl_range X (length cars - 1)).
  pose proof (lvl_range (levels r') (length (levels r') - 1)).
  case_bool_decide; lia.
Qed.

Lemma X11_optimum_against_heuristic_witness :
  MultiPaintshop.objective ([false; true], [true; true]) ≤ 1 + 1 ∧
  adjacent_changes (coloring [false; true]) ≤ adjacent_changes [white; black] + 1.
Proof.
  apply (X11_optimum_against_heuristic cars_AB white_AB black_AB
           [white; black] 1 ([false; true], [true; true])).
  - by_evaluation.
  - vm_compute. reflexivity.
  - apply solve_Some. vm_compute. reflexivity.
Defined.

(** ** The two models on the binary variant *)





(** ** The optimum of the binary model *)






(** ** The demand tables of the data cell *)


(** The comprehension raises only [KeyError], for a type it runs over that
    [demand_white] has no entry for. *)
Lemma demand_black_loop_inl ts cars dw : ∀ d e,
  demand_black_loop ts cars dw d = inl e →
  ∃ k, e = KeyError k ∧ k ∈ ts ∧ dw !! k = None.
Proof.
  induction ts as [|t0 ts IH]; intros d e He; [done|].
  simpl in He. destruct (dw !! t0) as [w|] eqn:Hw.
  - destruct (IH _ _ He) as (k & -> & Hk & Hn). exists k. split_and!; [done| |done].
    by right.
  - exists t0. split_and!; [congruence| |done]. left.
Qed.




(** X15: the comprehension for [demand_black] raises exactly when the set
    of types holds a type that [demand_white] has no entry for, and what it
    raises is [KeyError] for such a type. *)
Theorem X15_demand_black_key_error types cars dw :
  (∀ e, demand_black types cars dw = inl e →
        ∃ k, e = KeyError k ∧ k ∈ types ∧ dw !! k = None) ∧
  ((∃ k, k ∈ types ∧ dw !! k = None) →
   ∃ k, demand_black types cars dw = inl (KeyError k) ∧
        k ∈ types ∧ dw !! k = None).
Proof.
  assert (∀ e, demand_black types cars dw = inl e →
               ∃ k, e = KeyError k ∧ k ∈ types ∧ dw !! k = None) as Hraise.
  { intros e He. apply demand_black_loop_inl in He as (k & -> & Hk & Hn).
    exists k. split_and!; [done| |done]. by apply elem_of_elements. }
  split; [done|]. intros (k & Hk & Hn).
  destruct (demand_black types cars dw) as [e|db] eqn:E.
  - destruct (Hraise e eq_refl) as (k' & -> & Hk' & Hn'). by exists k'.
  - exfalso. unfold demand_black in E.
    assert (∀ ts d, demand_black_loop ts cars dw d = inr db → k ∉ ts) as Hrun.
    { clear -Hn. induction ts as [|t0 ts IH]; intros d Hr; [apply not_elem_of_nil|].
      simpl in Hr. destruct (dw !! t0) as [w|] eqn:Hw; [|done].
      apply not_elem_of_cons. split; [congruence|by eapply IH]. }
    apply (Hrun _ _ E). by apply elem_of_elements.
Qed.

Lemma X15_demand_black_key_error_witness :
  ∃ k, demand_black {[ "A"%string; "B"%string ]} cars_AB white_A_only =
         inl (KeyError k) ∧
       k ∈ ({[ "A"%string; "B"%string ]} : gset string) ∧ white_A_only !! k = None.
Proof.
  apply (X15_demand_black_key_error {[ "A"%string; "B"%string ]} cars_AB white_A_only).
  exists "B"%string. split; [by_evaluation|reflexivity].
Defined.

(** ** The number of types *)

Lemma sum_indicator (ts : list string) (c : string) :
  NoDup ts →
  foldr Z.add 0 ((λ t, if bool_decide (c = t) then 1 else 0) <$> ts) =
  if bool_decide (c ∈ ts) then 1 else 0.
Proof.
  induction 1 as [|t ts Hnot _ IH]; [done|].
  rewrite fmap_cons. simpl foldr. rewrite IH.
  destruct (decide (c = t)) as [->|Hne].
  - rewrite (bool_decide_eq_false_2 (t ∈ ts)) by done.
    rewrite !bool_decide_eq_true_2; [lia|left|done].
  - rewrite (bool_decide_eq_false_2 (c = t)) by done.
    destruct (decide (c ∈ ts)) as [Hin|Hn].
    + rewrite !bool_decide_eq_true_2; [lia|by right|done].
    + rewrite !bool_decide_eq_false_2; [lia| |done].
      by intros [?|?]%elem_of_cons.
Qed.

(** The counts of the types of a sequence add up to its length. *)
Lemma sum_counts (cars ts : list string) :
  NoDup ts → (∀ c, c ∈ cars → c ∈ ts) →
  foldr Z.add 0 (count cars <$> ts) = Z.of_nat (length cars).
Proof.
  intros Hnd. induction cars as [|c cars IH]; intros Hall.
  - simpl. clear. induction ts as [|t ts IH]; [done|].
    rewrite fmap_cons. simpl foldr. rewrite IH, count_nil. lia.
  - assert (foldr Z.add 0 (count (c :: cars) <$> ts) =
            foldr Z.add 0 ((λ t, if bool_decide (c = t) then 1 else 0) <$> ts) +
            foldr Z.add 0 (count cars <$> ts)) as ->.
    { clear. induction ts as [|t ts IH]; [done|].
      rewrite !fmap_cons. simpl foldr. rewrite IH, count_cons. lia. }
    rewrite (sum_indicator ts c Hnd), IH by (intros; apply Hall; by right).
    rewrite bool_decide_eq_true_2 by (apply Hall; left). simpl length. lia.
Qed.

Lemma sum_twos (f : string → Z) (ts : list string) :
  (∀ t, t ∈ ts → f t = 2) →
  foldr Z.add 0 (f <$> ts) = 2 * Z.of_nat (length ts).
Proof.
  induction ts as [|t ts IH]; intros Hall; [done|].
  rewrite fmap_cons. simpl foldr. simpl length.
  rewrite IH by (intros; apply Hall; by right).
  rewrite (Hall t) by left. lia.
Qed.

(** X16: a sequence in which each type occurs exactly twice has twice as
    many cars as [n_types] counts types. *)
Theorem X16_binary_variant_length cars :
  binary_variant cars → length cars = (2 * n_types cars)%nat.
Proof.
  intros HB. unfold binary_variant in HB. rewrite Forall_forall in HB.
  pose proof (sum_counts cars (elements (types cars)) (NoDup_elements _)) as Hsum.
  rewrite (sum_twos (count cars)) in Hsum.
  - unfold n_types, size, set_size. simpl.
    assert (2 * Z.of_nat (length (elements (types cars))) = Z.of_nat (length cars))
      as H2; [|lia].
    apply Hsum. intros c Hc. apply elem_of_elements. by apply elem_of_list_to_set.
  - intros t Ht%elem_of_elements. apply HB. by apply elem_of_list_to_set in Ht.
Qed.

Lemma X16_binary_variant_length_witness :
  length sequence = (2 * n_types sequence)%nat.
Proof. apply (X16_binary_variant_length sequence). by_evaluation. Defined.

(** ** All demand black *)



